(** * Urban isolation index: a shallow embedding of the index pipeline

    Numeric columns are modelled over the real numbers [R] (floating-point
    rounding is not modelled).  A pandas float value that may be NaN is an
    [option R] ([None] = NaN) where the code can produce or meet one. *)

From Stdlib Require Import String Reals Lra List Bool Lia.
From Stdlib Require QArith Qreals ZArith.
Import ListNotations.
Open Scope R_scope.

(** ** Python-side helpers: exceptions and results *)
Module Py.

Inductive exn : Type :=
| ValueError
| KeyError.

Inductive result (A : Type) : Type :=
| Ok (a : A)
| Raise (e : exn).
Arguments Ok {A} a.
Arguments Raise {A} e.

End Py.
Import Py.

(** ** Summary statistics as pandas computes them on a complete column *)
Module Stats.

Fixpoint sumR (l : list R) : R :=
  match l with
  | [] => 0
  | x :: t => x + sumR t
  end.

Definition nR (l : list R) : R := INR (length l).

(** [Series.mean()] (only meaningful on a non-empty column). *)
Definition mean (l : list R) : R := sumR l / nR l.

(** Sum of squared deviations from the mean. *)
Definition ss (l : list R) : R := sumR (map (fun x => (x - mean l) ^ 2) l).

(** [Series.std(ddof=ddof)]: NaN ([None]) when the column has at most
    [ddof] rows, otherwise [sqrt (ss / (n - ddof))].  pandas' default is
    [ddof = 1] (sample std); [ddof = 0] is the population std. *)
Definition std (ddof : nat) (l : list R) : option R :=
  if Nat.leb (length l) ddof then None
  else Some (sqrt (ss l / INR (length l - ddof))).

End Stats.
Import Stats.

(** ** The standardisation sites of the pipeline *)
Module Standardize.

(** [src/uix/index.py : _zscore] (the column is numeric after
    [pd.to_numeric]). *)
Definition zscore_uix (s : list R) : list R :=
  let mu := mean s in
  match std 0 s with
  | None => map (fun _ => 0) s
  | Some sigma =>
      if Req_EM_T sigma 0 then map (fun _ => 0) s
      else map (fun x => (x - mu) / sigma) s
  end.

(** [src/cli/11_build_final_index.py : safe_z] on a NaN-free column:
    [x * 0] when the std is zero or NaN.  [Scripts.safe_z_col] is the same
    function on a column with NaN cells. *)
Definition safe_z (x : list R) : list R :=
  match std 0 x with
  | None => map (fun v => v * 0) x
  | Some sd =>
      if Req_EM_T sd 0 then map (fun v => v * 0) x
      else map (fun v => (v - mean x) / sd) x
  end.

(** [src/cli/07_pca_iso_index.py : zscore] on a NaN-free column: only
    [sigma == 0] is tested; on such a column the std is NaN only when it is
    empty, and the result is then empty.  [Frame.zscore_pca_col] is the
    same function on a column with NaN cells (an all-NaN column gives an
    all-NaN result). *)
Definition zscore_pca (series : list R) : list R :=
  let mu := mean series in
  match std 0 series with
  | None => []
  | Some sigma =>
      if Req_EM_T sigma 0 then map (fun _ => 0) series
      else map (fun x => (x - mu) / sigma) series
  end.

(** [src/cli/09_ingest_transit_alt.py : main], the [transit_z] column:
    [(d - d.mean()) / d.std()] with pandas' default [ddof=1] and no guard;
    a NaN or zero std gives non-finite values ([None]). *)
Definition transit_z (d : list R) : list (option R) :=
  match std 1 d with
  | None => map (fun _ => None) d
  | Some sigma =>
      map (fun x => if Req_EM_T sigma 0 then None
                    else Some ((x - mean d) / sigma)) d
  end.

(** [df.dropna(subset=[col])] on one column. *)
Fixpoint dropna (l : list (option R)) : list R :=
  match l with
  | [] => []
  | Some x :: t => x :: dropna t
  | None :: t => dropna t
  end.

(** [src/cli/07_ingest_tokyo_access.py : main], the [access_z] column:
    rows with missing [access_raw] are dropped, then
    [(x - mean) / std] with pandas' default [ddof=1]; a zero or NaN std
    raises [ValueError]. *)
Definition access_z (access_raw : list (option R)) : result (list R) :=
  let df := dropna access_raw in
  let m := mean df in
  match std 1 df with
  | None => Raise ValueError
  | Some sd =>
      if Req_EM_T sd 0 then Raise ValueError
      else Ok (map (fun x => (x - m) / sd) df)
  end.

End Standardize.

(** ** LISA cluster labelling: the three labelling sites *)
Module Lisa.
Local Open Scope string_scope.

(** The quadrant codes of [esda.Moran_Local.q] are 1..4. *)

(** [src/cli/11_spatial_stats_osaka.py : classify_lisa._cluster_label]. *)
Definition osaka_cluster_label (p_thresh p : R) (q : nat) : string :=
  if Rle_dec p_thresh p then "Not significant"
  else if Nat.eqb q 1 then "High-High"
  else if Nat.eqb q 2 then "Low-Low"
  else if Nat.eqb q 3 then "Low-High"
  else if Nat.eqb q 4 then "High-Low"
  else "Not significant".

(** [src/scripts/plot_tokyo_diri_and_lisa_maps.py : classify_lisa], one
    element of the vectorised masks: the label starts as
    "Not significant" and each [labels[(q == k) & sig] = ...] assignment
    is applied in turn. *)
Definition tokyo_classify_one (p_thresh p : R) (q : nat) : string :=
  let sig := if Rlt_dec p p_thresh then true else false in
  let lab := "Not significant" in
  let lab := if Nat.eqb q 1 && sig then "High-High" else lab in
  let lab := if Nat.eqb q 2 && sig then "Low-High" else lab in
  let lab := if Nat.eqb q 3 && sig then "Low-Low" else lab in
  let lab := if Nat.eqb q 4 && sig then "High-Low" else lab in
  lab.

Definition tokyo_classify (p_thresh : R) (ps : list R) (qs : list nat)
  : list string :=
  map (fun pq => tokyo_classify_one p_thresh (fst pq) (snd pq)) (combine ps qs).

(** [src/notebooks/osaka_isolation_analysis.py], cell 8: the raw cluster
    code is [q] where [p_sim < 0.05] and 0 elsewhere, then [.map] through
    [cluster_map] ([None] is the NaN of an unmapped code). *)
Definition notebook_cluster_raw (p : R) (q : nat) : nat :=
  if Rlt_dec p 0.05 then q else 0%nat.

Definition cluster_map (c : nat) : option string :=
  match c with
  | 0 => Some "Not significant"
  | 1 => Some "High-High"
  | 2 => Some "Low-High"
  | 3 => Some "Low-Low"
  | 4 => Some "High-Low"
  | _ => None
  end%nat.

Definition notebook_cluster_label (p : R) (q : nat) : option string :=
  cluster_map (notebook_cluster_raw p q).

(** The labelling the spec describes: quadrant name under
    1=High-High, 2=Low-High, 3=Low-Low, 4=High-Low when [p < p_thresh]. *)
Definition spec_quadrant_name (q : nat) : string :=
  match q with
  | 1 => "High-High"
  | 2 => "Low-High"
  | 3 => "Low-Low"
  | 4 => "High-Low"
  | _ => "Not significant"
  end%nat.

Definition spec_cluster_label (p_thresh p : R) (q : nat) : string :=
  if Rlt_dec p p_thresh then spec_quadrant_name q else "Not significant".

End Lisa.

(** ** Weight sets *)
Module Weights.
Local Open Scope string_scope.

Definition weight_set := list (string * R).

(** [src/uix/index.py : IsolationIndexConfig.__post_init__] default
    weights (the same literals as [03_build_index.isolation_config_for_city]). *)
Definition default_weights : weight_set :=
  [("pct_age65p", 0.4); ("pct_single65p", 0.3); ("poverty_rate", 0.3)].

(** [src/scripts/build_designed_index.py : main], the D-IRI coefficients. *)
Definition designed_weights : weight_set :=
  [("pct_age65p_z", 0.25); ("pct_single65p_z", 0.25);
   ("poverty_rate_z", 0.20); ("neg_transit_z", 0.15)].

(** [src/cli/11_build_final_index.py : main], [w_demo], [w_socio],
    [w_transit]. *)
Definition final_weights : weight_set :=
  [("demo_component_z", 0.50); ("socio_component_z", 0.375);
   ("transit_component_z", 0.125)].

(** The original four-component weights named in the comment of
    11_build_final_index.py, before the access term was dropped. *)
Definition final_weights_with_access : weight_set :=
  [("demo_component_z", 0.40); ("socio_component_z", 0.30);
   ("transit_component_z", 0.10); ("access_component_z", 0.20)].

Definition total (ws : weight_set) : R := sumR (map snd ws).

(** The renormalisation policy of the spec: drop a component and divide
    every remaining weight by the remaining total. *)
Definition spec_drop_renormalize (drop : string) (ws : weight_set) : weight_set :=
  let kept := filter (fun kw => negb (String.eqb (fst kw) drop)) ws in
  map (fun kw => (fst kw, snd kw / total kept)) kept.

End Weights.

(** ** Range normaliser *)
Module Normalize.

Definition series_min (s : list R) : R :=
  match s with [] => 0 | x :: t => fold_left Rmin t x end.
Definition series_max (s : list R) : R :=
  match s with [] => 0 | x :: t => fold_left Rmax t x end.

(** [src/cli/13_normalize_indices.py : minmax_0_100] on a complete numeric
    column (an empty column gives an empty result). *)
Definition minmax_0_100 (series : list R) : list R :=
  match series with
  | [] => []
  | _ =>
      let min_val := series_min series in
      let max_val := series_max series in
      if Req_EM_T (max_val - min_val) 0 then map (fun _ => 50) series
      else map (fun x => 100 * (x - min_val) / (max_val - min_val)) series
  end.

End Normalize.

(** ** Tables, the object store and the index builders *)
Module Frame.
Local Open Scope string_scope.

(** A pandas float column: [None] is NaN. *)
Definition column := list (option R).

(** A DataFrame: named columns in insertion order. *)
Definition frame := list (string * column).

Definition has_col (df : frame) (c : string) : bool :=
  existsb (fun kc => String.eqb (fst kc) c) df.

Fixpoint get_col (df : frame) (c : string) : option column :=
  match df with
  | [] => None
  | (k, v) :: t => if String.eqb k c then Some v else get_col t c
  end.

(** [df[c] = v]: replace the column in place, or append it. *)
Fixpoint set_col (df : frame) (c : string) (v : column) : frame :=
  match df with
  | [] => [(c, v)]
  | (k, w) :: t => if String.eqb k c then (k, v) :: t else (k, w) :: set_col t c v
  end.

Definition nrows (df : frame) : nat :=
  match df with [] => 0 | (_, v) :: _ => length v end.

(** [df[c]]: a missing column raises [KeyError]. *)
Definition column_of (df : frame) (c : string) : result column :=
  match get_col df c with Some v => Ok v | None => Raise KeyError end.

Fixpoint all_some (c : column) : option (list R) :=
  match c with
  | [] => Some []
  | Some x :: t => option_map (cons x) (all_some t)
  | None :: _ => None
  end.

(** NaN-propagating arithmetic on float cells. *)
Definition fmul (w : R) (v : option R) : option R := option_map (fun x => w * x) v.
Definition fadd (a b : option R) : option R :=
  match a, b with Some x, Some y => Some (x + y) | _, _ => None end.

(** Python objects live in a store; a DataFrame argument is a reference,
    so writes through it are seen by the caller. *)
Record store := mkStore { heap : nat -> frame; next : nat }.

Definition store_upd (st : store) (r : nat) (df : frame) : store :=
  mkStore (fun r' => if Nat.eqb r' r then df else heap st r') (next st).

(** Effects: the store is threaded through, and survives an exception. *)
Definition M (A : Type) := store -> store * result A.

Definition ret {A} (a : A) : M A := fun st => (st, Ok a).
Definition raise {A} (e : exn) : M A := fun st => (st, Raise e).
Definition bind {A B} (m : M A) (k : A -> M B) : M B :=
  fun st => let (st', r) := m st in
            match r with Ok a => k a st' | Raise e => (st', Raise e) end.
Definition lift {A} (r : result A) : M A := fun st => (st, r).

Definition get_obj (r : nat) : M frame := fun st => (st, Ok (heap st r)).
Definition set_obj (r : nat) (df : frame) : M unit :=
  fun st => (store_upd st r df, Ok tt).
(** [df.copy()]: a fresh object. *)
Definition new_obj (df : frame) : M nat :=
  fun st => (mkStore (fun r' => if Nat.eqb r' (next st) then df else heap st r')
                     (S (next st)), Ok (next st)).

Declare Scope frame_monad_scope.
Notation "x <- m ;; k" := (bind m (fun x => k))
  (at level 61, m at next level, right associativity) : frame_monad_scope.
Notation "m ;;; k" := (bind m (fun _ => k))
  (at level 61, right associativity) : frame_monad_scope.
Local Open Scope frame_monad_scope.

(** *** [src/uix/index.py] *)

(** [_zscore] on a float column: the mean and std skip NaN cells. *)
Definition zscore_col (s : column) : column :=
  let xs := Standardize.dropna s in
  let mu := mean xs in
  match std 0 xs with
  | None => map (fun _ => Some 0) s
  | Some sigma =>
      if Req_EM_T sigma 0 then map (fun _ => Some 0) s
      else map (option_map (fun x => (x - mu) / sigma)) s
  end.

Record IsolationIndexConfig := mkConfig {
  metrics : list string;
  weights : list (string * R);   (* a dict, in insertion order *)
  index_col : string
}.

(** [IsolationIndexConfig()] after [__post_init__]. *)
Definition default_config : IsolationIndexConfig :=
  mkConfig ["pct_age65p"; "pct_single65p"; "poverty_rate"]
           Weights.default_weights "iso_index".

Fixpoint lookup (d : list (string * string)) (k : string) : result string :=
  match d with
  | [] => Raise KeyError
  | (k', v) :: t => if String.eqb k' k then Ok v else lookup t k
  end.

(** Step 1: z-score each metric, recording [z_cols]. *)
Fixpoint zscore_metrics (ms : list string) (out : frame)
    (z_cols : list (string * string)) : result (frame * list (string * string)) :=
  match ms with
  | [] => Ok (out, z_cols)
  | metric :: rest =>
      if negb (has_col out metric) then Raise KeyError
      else
        let z_name := metric ++ "_z" in
        match column_of out metric with
        | Ok v => zscore_metrics rest (set_col out z_name (zscore_col v))
                                 ((metric, z_name) :: z_cols)
        | Raise e => Raise e
        end
  end.

(** The running weighted sum: the scalar [0.0] until a column is added. *)
Inductive acc := Scalar (x : R) | Series (c : column).

Definition acc_add_weighted (idx : acc) (w : R) (c : column) : acc :=
  match idx with
  | Scalar x => Series (map (fun v => fadd (Some x) (fmul w v)) c)
  | Series s => Series (map (fun p => fadd (fst p) (fmul w (snd p))) (combine s c))
  end.

(** Step 2: [idx = idx + weight * out[z_cols[metric]]] for each weight. *)
Fixpoint weighted_sum (ws : list (string * R)) (out : frame)
    (z_cols : list (string * string)) (idx : acc) : result acc :=
  match ws with
  | [] => Ok idx
  | (metric, weight) :: rest =>
      match lookup z_cols metric with
      | Raise e => Raise e
      | Ok z_name =>
          match column_of out z_name with
          | Raise e => Raise e
          | Ok c => weighted_sum rest out z_cols (acc_add_weighted idx weight c)
          end
      end
  end.

Definition acc_column (idx : acc) (n : nat) : column :=
  match idx with Scalar x => repeat (Some x) n | Series s => s end.

(** [compute_isolation_index(df, config)]; [df.copy()] makes the result a
    fresh value, so it is a pure function of the table. *)
Definition compute_isolation_index (df : frame) (config : IsolationIndexConfig)
  : result frame :=
  let out := df in
  match zscore_metrics (metrics config) out [] with
  | Raise e => Raise e
  | Ok (out, z_cols) =>
      match weighted_sum (weights config) out z_cols (Scalar 0) with
      | Raise e => Raise e
      | Ok idx => Ok (set_col out (index_col config) (acc_column idx (nrows out)))
      end
  end.

(** *** [src/cli/07_pca_iso_index.py] *)

(** [zscore]: only [sigma == 0] is tested; a NaN std (empty or all-NaN
    column) gives an all-NaN column. *)
Definition zscore_pca_col (series : column) : column :=
  let xs := Standardize.dropna series in
  let mu := mean xs in
  match std 0 xs with
  | None => map (fun _ => None) series
  | Some sigma =>
      if Req_EM_T sigma 0 then map (fun _ => Some 0) series
      else map (option_map (fun x => (x - mu) / sigma)) series
  end.

Definition needed := ["pct_age65p_z"; "pct_single65p_z"; "poverty_rate_z"].
Definition raw_needed := ["pct_age65p"; "pct_single65p"; "poverty_rate"].

(** [df[z] = zscore(df[raw])], written through the caller's reference. *)
Definition assign_z (r : nat) (z raw : string) : M unit :=
  df <- get_obj r ;;
  v <- lift (column_of df raw) ;;
  set_obj r (set_col df z (zscore_pca_col v)).

Fixpoint zip3 (a b c : list R) : list (list R) :=
  match a, b, c with
  | x :: a', y :: b', z :: c' => [x; y; z] :: zip3 a' b' c'
  | _, _, _ => []
  end.

(** [df[needed].to_numpy()] as sklearn receives it: NaN or an empty
    matrix make [PCA.fit_transform] raise [ValueError]. *)
Definition design_matrix (df : frame) : result (list (list R)) :=
  match column_of df "pct_age65p_z", column_of df "pct_single65p_z",
        column_of df "poverty_rate_z" with
  | Ok a, Ok b, Ok c =>
      match all_some a, all_some b, all_some c with
      | Some a', Some b', Some c' =>
          match zip3 a' b' c' with [] => Raise ValueError | X => Ok X end
      | _, _, _ => Raise ValueError
      end
  | Raise e, _, _ | _, Raise e, _ | _, _, Raise e => Raise e
  end.

Definition ss_cov (a b : list R) : R :=
  sumR (map (fun p => (fst p - mean a) * (snd p - mean b)) (combine a b)).

(** [np.corrcoef(a, b)[0, 1]]; NaN ([None]) when a cell is NaN or a
    variance is zero. *)
Definition corrcoef (a b : column) : option R :=
  match all_some a, all_some b with
  | Some xa, Some xb =>
      if Req_EM_T (ss xa * ss xb) 0 then None
      else Some (ss_cov xa xb / sqrt (ss xa * ss xb))
  | _, _ => None
  end.

(** [(scores - scores.mean()) / scores.std(ddof=0)] in numpy: a zero std
    gives NaN everywhere. *)
Definition standardize_scores (scores : list R) : column :=
  match std 0 scores with
  | None => []
  | Some sd =>
      if Req_EM_T sd 0 then map (fun _ => None) scores
      else map (fun s => Some ((s - mean scores) / sd)) scores
  end.

Section PCA.
(** [PCA(n_components=1).fit_transform(X)[:, 0]], from sklearn. *)
Variable pca_fit_transform : list (list R) -> list R.

Definition align_sign (df : frame) (scores_z : column) : result column :=
  if has_col df "iso_index" then
    match column_of df "iso_index" with
    | Raise e => Raise e
    | Ok iso =>
        if negb (Nat.eqb (length scores_z) (length iso)) then Raise ValueError
        else match corrcoef scores_z iso with
             | Some corr =>
                 if Rlt_dec corr 0 then Ok (map (option_map Ropp) scores_z)
                 else Ok scores_z
             | None => Ok scores_z
             end
    end
  else Ok scores_z.

(** [compute_pca_index(df)] with [df] the object at reference [r].
    Lines 45-58: when a z-column is missing, compute the three z-scores
    from the raw columns and write them into [df] itself. *)
Definition fill_missing_z (r : nat) : M unit :=
  df <- get_obj r ;;
  if forallb (has_col df) needed then ret tt
  else if existsb (fun c => negb (has_col df c)) raw_needed then raise ValueError
  else assign_z r "pct_age65p_z" "pct_age65p" ;;;
       assign_z r "pct_single65p_z" "pct_single65p" ;;;
       assign_z r "poverty_rate_z" "poverty_rate".

(** Lines 60-77: PCA, standardisation of PC1, sign alignment with
    [iso_index], then [df = df.copy(); df["iso_index_pca"] = scores_z]. *)
Definition pca_from (r : nat) : M nat :=
  df <- get_obj r ;;
  X <- lift (design_matrix df) ;;
  let scores := pca_fit_transform X in
  let scores_z := standardize_scores scores in
  scores_z <- lift (align_sign df scores_z) ;;
  if negb (Nat.eqb (length scores_z) (nrows df)) then raise ValueError
  else new_obj (set_col df "iso_index_pca" scores_z).

Definition compute_pca_index (r : nat) : M nat :=
  fill_missing_z r ;;; pca_from r.

(** The first principal component is well defined on a table when sklearn
    accepts its matrix and the projected scores are not constant. *)
Definition pc1_well_defined (df : frame) : Prop :=
  match design_matrix df with
  | Ok X => exists sd, std 0 (pca_fit_transform X) = Some sd /\ sd <> 0
  | Raise _ => False
  end.

End PCA.

End Frame.

(** ** Permutation inference of the local Moran statistic

    [src/cli/11_spatial_stats_osaka.py : compute_local_moran] (and the
    same call in [src/scripts/plot_tokyo_diri_and_lisa_maps.py : main])
    runs [Moran_Local(y, w)] with esda's defaults: [permutations=999] and
    [seed=None].  With [seed=None], esda draws the seed of its permutation
    generator from numpy's process-global generator
    ([np.random.randint(12345, 12345000)]) and then computes conditional
    permutation p-values.  Neither function has a seed parameter, and no
    file of the repository seeds numpy.

    numpy's generators are modelled by the minimal-standard linear
    congruential generator on [Z] (a stand-in for MT19937: only the fact
    that the drawn values depend on the generator state matters); values
    are rationals [Q] so that a run can be evaluated. *)
Module Moran.
Import QArith ZArith.
Local Open Scope Q_scope.

(** A stand-in generator (a Lehmer step) for esda's seeded draws, and
    [randint(lo, hi)] from it.  It is not numpy's MT19937: what is proved
    of [moran_local] holds for every seed, and [moran_local_draws] below
    takes the draws themselves as input. *)
Definition rng_step (s : Z) : Z := Z.modulo (16807 * s) 2147483647.

Definition randint (lo hi : Z) (s : Z) : Z * Z :=
  let s' := rng_step s in ((lo + Z.modulo s' (hi - lo))%Z, s').

Fixpoint set_nth (l : list nat) (i v : nat) : list nat :=
  match l, i with
  | [], _ => []
  | _ :: t, O => v :: t
  | x :: t, S i' => x :: set_nth t i' v
  end.

Definition swap (l : list nat) (i j : nat) : list nat :=
  set_nth (set_nth l i (nth j l O)) j (nth i l O).

(** numpy's Fisher-Yates shuffle: for [i] from [m - 1] down to [1], swap
    position [i] with a position drawn uniformly in [0, i]. *)
Fixpoint shuffle_down (i : nat) (a : list nat) (s : Z) : list nat * Z :=
  match i with
  | O => (a, s)
  | S i' =>
      let (j, s') := randint 0 (Z.of_nat i + 1) s in
      shuffle_down i' (swap a i (Z.to_nat j)) s'
  end.

(** [rng.permutation(m)]. *)
Definition permutation (m : nat) (s : Z) : list nat * Z :=
  shuffle_down (m - 1) (seq 0 m) s.

(** The permuted neighbour ids: for each of [perms] permutations, the
    first [k] entries of a permutation of the [m = n - 1] other sites. *)
Fixpoint permuted_ids (perms m k : nat) (s : Z) : list (list nat) :=
  match perms with
  | O => []
  | S p =>
      let (a, s') := permutation m s in firstn k a :: permuted_ids p m k s'
  end.

Definition sumQ (l : list Q) : Q := fold_right Qplus 0 l.

Definition meanQ (l : list Q) : Q := sumQ l / inject_Z (Z.of_nat (length l)).

Definition remove_nth (l : list Q) (i : nat) : list Q := firstn i l ++ skipn (S i) l.

(** Row-standardised spatial lag of site [i] ([w.transform = "R"]):
    the mean of the values at its neighbours. *)
Definition lag (vals : list Q) (ids : list nat) : Q :=
  sumQ (map (fun j => nth j vals 0) ids) / inject_Z (Z.of_nat (length ids)).

(** [esda]'s folded pseudo p-value: [larger] counts the simulated
    statistics at least the observed one, and is replaced by
    [perms - larger] when that is smaller. *)
Definition p_sim (perms : nat) (obs : Q) (sims : list Q) : Q :=
  let larger := length (filter (fun v => Qle_bool obs v) sims) in
  let larger := if Nat.ltb (perms - larger) larger then (perms - larger)%nat
                else larger in
  inject_Z (Z.of_nat (S larger)) / inject_Z (Z.of_nat (S perms)).

(** Quadrant of a site: 1 = High-High, 2 = Low-High, 3 = Low-Low,
    4 = High-Low ([esda.Moran_Local.q]). *)
Definition quadrant (zi lg : Q) : nat :=
  if Qlt_le_dec 0 zi then (if Qlt_le_dec 0 lg then 1 else 4)%nat
  else (if Qlt_le_dec 0 lg then 2 else 3)%nat.

(** [Moran_Local(y, w, permutations=perms, seed=seed)]: the p-values
    [p_sim] and quadrants [q], for sites [0 .. n-1] with neighbour lists
    [nbrs]. *)
Definition moran_local (y : list Q) (nbrs : list (list nat)) (perms : nat)
    (seed : Z) : list Q * list nat :=
  let n := length y in
  let z := map (fun v => v - meanQ y) y in
  let kmax := fold_right Nat.max O (map (@length nat) nbrs) in
  let rids := permuted_ids perms (n - 1) kmax seed in
  let site i :=
    let zi := nth i z 0 in
    let ni := nth i nbrs [] in
    let ki := length ni in
    let obs := zi * lag z ni in
    let sims := map (fun ids => zi * lag (remove_nth z i) (firstn ki ids)) rids in
    (p_sim perms obs sims, quadrant zi (lag z ni)) in
  (map (fun i => fst (site i)) (seq 0 n), map (fun i => snd (site i)) (seq 0 n)).





End Moran.

(** ** A sample run of the PCA pipeline

    A two-ward table that already carries the three z-columns and an
    [iso_index], held as object [0] of a store, with a projection that
    keeps the first coordinate of each row. *)
Module Samples.
Import Frame.
Local Open Scope string_scope.

Definition pca_sample_frame : frame :=
  [("iso_index", [Some 0; Some 2]); ("pct_age65p_z", [Some 0; Some 2]);
   ("pct_single65p_z", [Some 0; Some 0]); ("poverty_rate_z", [Some 0; Some 0])].

Definition pca_sample_store : store := mkStore (fun _ => pca_sample_frame) 1.

Definition first_coordinate (X : list (list R)) : list R := map (fun row => hd 0 row) X.

End Samples.

(** ** Column transformations used to state invariance properties *)
Module Transforms.
Import Frame.

(** One cell of [a * df[m] + b]; NaN stays NaN. *)
Definition affine_cell (a b : R) (v : option R) : option R :=
  option_map (fun x => a * x + b) v.

(** [df[m] = f(df[m])] applied to the column(s) named [m]. *)
Definition map_col (m : string) (f : column -> column) (df : frame) : frame :=
  map (fun kv => if String.eqb (fst kv) m then (fst kv, f (snd kv)) else kv) df.

(** Two tables with the same column names in the same order, whose
    columns agree except that columns named [m] may be transformed by [f]. *)
Definition frame_rel (m : string) (f : column -> column) (df df' : frame) : Prop :=
  Forall2 (fun kv kv' => fst kv' = fst kv /\
             (snd kv' = snd kv \/ (fst kv = m /\ snd kv' = f (snd kv)))) df df'.

End Transforms.

(** ** The command-line scripts that combine z-score columns *)
Module Scripts.
Import Frame.
Local Open Scope string_scope.

(** Sequencing of calls that may raise. *)
Definition rbind {A B : Type} (m : result A) (k : A -> result B) : result B :=
  match m with Ok a => k a | Raise e => Raise e end.

(** Column arithmetic of pandas on one frame (same index): NaN
    propagates through every operation. *)
Definition col_scale (w : R) (c : column) : column := map (fmul w) c.
Definition col_add (u v : column) : column :=
  map (fun p => fadd (fst p) (snd p)) (combine u v).
Definition col_neg (c : column) : column := map (option_map Ropp) c.

(** [missing = [c for c in required if c not in df.columns]]. *)
Definition missing (df : frame) (required : list string) : list string :=
  filter (fun c => negb (has_col df c)) required.

Definition required_z : list string :=
  ["pct_age65p_z"; "pct_single65p_z"; "poverty_rate_z"; "transit_z"].

(** [src/scripts/build_designed_index.py : main], from the table read
    from [--in-path] to the table written to [--out-path]. *)
Definition build_designed_index (df : frame) : result frame :=
  match missing df required_z with
  | _ :: _ => Raise ValueError
  | [] =>
      rbind (column_of df "transit_z") (fun t =>
      let df := set_col df "neg_transit_z" (col_neg t) in
      rbind (column_of df "pct_age65p_z") (fun a =>
      rbind (column_of df "pct_single65p_z") (fun s =>
      rbind (column_of df "poverty_rate_z") (fun p =>
      rbind (column_of df "neg_transit_z") (fun nt =>
      Ok (set_col df "iri_designed"
            (col_add (col_add (col_add (col_scale 0.25 a) (col_scale 0.25 s))
                              (col_scale 0.20 p))
                     (col_scale 0.15 nt))))))))
  end.

(** [src/cli/11_build_final_index.py : safe_z] on a float column: pandas'
    [std(ddof=0)] and [mean()] skip NaN; [x * 0] keeps the NaN cells. *)
Definition safe_z_col (x : column) : column :=
  let xs := Standardize.dropna x in
  match std 0 xs with
  | None => map (option_map (fun v => v * 0)) x
  | Some sd =>
      if Req_EM_T sd 0 then map (option_map (fun v => v * 0)) x
      else map (option_map (fun v => (v - mean xs) / sd)) x
  end.

(** The loop [for col in [...]: df[col + "_z"] = safe_z(df[col])]. *)
Fixpoint safe_z_loop (cols : list string) (df : frame) : result frame :=
  match cols with
  | [] => Ok df
  | col :: rest =>
      rbind (column_of df col) (fun v =>
      safe_z_loop rest (set_col df (col ++ "_z") (safe_z_col v)))
  end.

(** [src/cli/11_build_final_index.py : main], from the table read from
    [--input] to the table written to [--out]. *)
Definition build_final_index (df : frame) : result frame :=
  match missing df required_z with
  | _ :: _ => Raise ValueError
  | [] =>
      rbind (column_of df "pct_age65p_z") (fun a =>
      rbind (column_of df "pct_single65p_z") (fun s =>
      let df := set_col df "demo_component" (col_add (col_scale 0.5 a) (col_scale 0.5 s)) in
      rbind (column_of df "poverty_rate_z") (fun p =>
      let df := set_col df "socio_component" p in
      rbind (column_of df "transit_z") (fun t =>
      let df := set_col df "transit_component" (col_neg t) in
      rbind (safe_z_loop ["demo_component"; "socio_component"; "transit_component"] df)
        (fun df =>
      let w_demo := 0.50 in
      let w_socio := 0.375 in
      let w_transit := 0.125 in
      rbind (column_of df "demo_component_z") (fun d =>
      rbind (column_of df "socio_component_z") (fun so =>
      rbind (column_of df "transit_component_z") (fun tr =>
      Ok (set_col df "iso_final"
            (col_add (col_add (col_scale w_demo d) (col_scale w_socio so))
                     (col_scale w_transit tr)))))))))))
  end.

(** [src/cli/13_normalize_indices.py : minmax_0_100] on a float column:
    [min()] and [max()] skip NaN and are NaN on an all-NaN column (then
    [max_val - min_val == 0] is false and every row is NaN); in the
    constant case [pd.Series([50] * len(series))] fills every row. *)
Definition minmax_col (series : column) : column :=
  match Standardize.dropna series with
  | [] => map (fun _ => None) series
  | xs =>
      let min_val := Normalize.series_min xs in
      let max_val := Normalize.series_max xs in
      if Req_EM_T (max_val - min_val) 0 then map (fun _ => Some 50) series
      else map (option_map (fun x => 100 * (x - min_val) / (max_val - min_val))) series
  end.

(** The loop [for col in optional_cols: df[f"{col}_100"] = minmax_0_100(df[col])]. *)
Fixpoint normalize_optional (cols : list string) (df : frame) : result frame :=
  match cols with
  | [] => Ok df
  | col :: rest =>
      rbind (column_of df col) (fun v =>
      normalize_optional rest (set_col df (col ++ "_100") (minmax_col v)))
  end.

(** [src/cli/13_normalize_indices.py : main], from the table read from
    [--in-path] to the table written to [--out-path]. *)
Definition normalize_indices (df : frame) : result frame :=
  match missing df ["iri_designed"; "iri_pca"] with
  | _ :: _ => Raise ValueError
  | [] =>
      let optional_cols := filter (fun c => has_col df c) ["iso_index"; "transit_z"] in
      rbind (column_of df "iri_designed") (fun v =>
      let df := set_col df "iri_designed_100" (minmax_col v) in
      rbind (column_of df "iri_pca") (fun v =>
      let df := set_col df "iri_pca_100" (minmax_col v) in
      normalize_optional optional_cols df))
  end.

End Scripts.

(** ** The colour tables of the LISA cluster maps *)
Module Colours.
Local Open Scope string_scope.

(** [src/cli/11_spatial_stats_osaka.py : save_results], [cluster_colors]. *)
Definition osaka_cluster_colors : list (string * string) :=
  [("High-High", "#d7191c"); ("Low-Low", "#2c7bb6"); ("Low-High", "#abd9e9");
   ("High-Low", "#fdae61"); ("Not significant", "#dddddd")].

(** [src/scripts/plot_tokyo_diri_and_lisa_maps.py : main], [color_map]. *)
Definition tokyo_color_map : list (string * string) :=
  [("High-High", "#d7191c"); ("Low-Low", "#2c7bb6"); ("Low-High", "#fdae61");
   ("High-Low", "#abdda4"); ("Not significant", "#e0e0e0")].

(** [Series.map(d)] on one label: a label that is not a key gives NaN
    ([None]). *)
Definition dict_map (d : list (string * string)) (k : string) : option string :=
  match find (fun kv => String.eqb (fst kv) k) d with
  | Some kv => Some (snd kv)
  | None => None
  end.

End Colours.

(** ** Ward-code harmonisation: [.astype(str).str.strip().str.zfill(5)]

    A Python string is a list of code points; here code points below 256
    ([Ascii.ascii]), the input being the text [astype(str)] produced. *)
Module WardCodes.
Import Ascii.

(** [str.isspace] on one code point below 256: the C0 controls 9-13 and
    28-31, space, NEL (133) and no-break space (160). *)
Definition py_isspace (c : ascii) : bool :=
  let n := nat_of_ascii c in
  ((Nat.leb 9 n && Nat.leb n 13) || (Nat.leb 28 n && Nat.leb n 32) ||
   Nat.eqb n 133 || Nat.eqb n 160)%bool.

Fixpoint lstrip (s : list ascii) : list ascii :=
  match s with
  | [] => []
  | c :: t => if py_isspace c then lstrip t else s
  end.

(** [str.strip()]: leading, then trailing whitespace removed. *)
Definition strip (s : list ascii) : list ascii := rev (lstrip (rev (lstrip s))).

(** [str.zfill(width)]: left-pad with ['0'] to [width], after a leading
    sign when there is one. *)
Definition zfill (width : nat) (s : list ascii) : list ascii :=
  if Nat.leb width (length s) then s
  else
    let fill := repeat "0"%char (width - length s) in
    match s with
    | c :: t =>
        if (Ascii.eqb c "+"%char || Ascii.eqb c "-"%char)%bool then c :: fill ++ t
        else fill ++ s
    | [] => fill
    end.

(** No whitespace at the head of a code-point list. *)
Definition hd_ok (l : list ascii) : bool :=
  match l with [] => true | c :: _ => negb (py_isspace c) end.

Definition ward_key (s : string) : string :=
  string_of_list_ascii (zfill 5 (strip (list_ascii_of_string s))).

End WardCodes.

(** * Proofs *)

(** ** Algebra of column sums *)
Module SumFacts.

Lemma sumR_app (l1 l2 : list R) : sumR (l1 ++ l2) = sumR l1 + sumR l2.
Proof. induction l1 as [|x t IH]; simpl; [lra | rewrite IH; lra]. Qed.

Lemma sumR_scale (a : R) (f : R -> R) (l : list R) :
  sumR (map (fun x => a * f x) l) = a * sumR (map f l).
Proof. induction l as [|x t IH]; simpl; [lra | rewrite IH; lra]. Qed.

Lemma sumR_shift (m : R) (l : list R) :
  sumR (map (fun x => x - m) l) = sumR l - m * nR l.
Proof.
  unfold nR; induction l as [|x t IH]; simpl; [lra|].
  rewrite IH. destruct (length t); simpl; lra.
Qed.

Lemma sumR_const0 {A} (l : list A) : sumR (map (fun _ => 0) l) = 0.
Proof. induction l; simpl; [lra | rewrite IHl; lra]. Qed.

Lemma nR_pos (l : list R) : l <> [] -> 0 < nR l.
Proof.
  intro H. unfold nR. destruct l as [|x t]; [congruence|].
  simpl length. apply lt_0_INR. lia.
Qed.

Lemma sumR_centered (l : list R) :
  l <> [] -> sumR (map (fun x => x - mean l) l) = 0.
Proof.
  intro H. rewrite sumR_shift. unfold mean.
  pose proof (nR_pos l H). field. lra.
Qed.

Lemma ss_nonneg (l : list R) : 0 <= ss l.
Proof.
  unfold ss. generalize (mean l) as m.
  induction l as [|x t IH]; intro m; cbn [map sumR]; [lra|].
  specialize (IH m). pose proof (pow2_ge_0 (x - m)). lra.
Qed.

Lemma map_length_R {A B} (f : A -> B) (l : list A) :
  length (map f l) = length l.
Proof. apply length_map. Qed.

(** Dividing a column's deviations by a non-zero [sigma] gives a
    column of mean zero whose sum of squares is [ss l / sigma^2]. *)
Lemma scaled_dev_mean (l : list R) (sigma : R) :
  l <> [] -> sigma <> 0 ->
  mean (map (fun x => (x - mean l) / sigma) l) = 0.
Proof.
  intros Hl Hs. pose proof (sumR_centered l Hl) as Hc.
  set (m := mean l) in *. unfold mean.
  replace (map (fun x => (x - m) / sigma) l)
    with (map (fun x => / sigma * (x - m)) l)
    by (apply map_ext; intro; unfold Rdiv; ring).
  rewrite sumR_scale, Hc. unfold Rdiv. ring.
Qed.

Lemma scaled_dev_ss (l : list R) (sigma : R) :
  l <> [] -> sigma <> 0 ->
  ss (map (fun x => (x - mean l) / sigma) l) = ss l / sigma ^ 2.
Proof.
  intros Hl Hs. unfold ss at 1.
  rewrite scaled_dev_mean by assumption.
  rewrite map_map.
  replace (map (fun x => ((x - mean l) / sigma - 0) ^ 2) l)
    with (map (fun x => / sigma ^ 2 * ((x - mean l) ^ 2)) l)
    by (apply map_ext; intro; field; exact Hs).
  rewrite sumR_scale. unfold ss, Rdiv. ring.
Qed.

End SumFacts.
Import SumFacts.

(** ** Standardisation: the denominator of each site *)
Module StdFacts.

(** Dividing the deviations by [std ddof] gives a column whose [std ddof]
    is exactly 1: the denominator the site used is visible in which std of
    its output is 1. *)
Lemma standardize_std (ddof : nat) (l : list R) (sigma : R) :
  std ddof l = Some sigma -> sigma <> 0 ->
  mean (map (fun x => (x - mean l) / sigma) l) = 0 /\
  std ddof (map (fun x => (x - mean l) / sigma) l) = Some 1.
Proof.
  unfold std. intros H Hs.
  destruct (Nat.leb (length l) ddof) eqn:E; [discriminate|].
  injection H as H.
  pose proof E as E'. apply Nat.leb_gt in E'.
  assert (Hl : l <> []) by (intro; subst; simpl in E'; lia).
  split; [now apply scaled_dev_mean|].
  rewrite map_length_R, E.
  f_equal. rewrite scaled_dev_ss by assumption.
  assert (Hk : 0 < INR (length l - ddof)) by (apply lt_0_INR; lia).
  clear E.
  assert (Hss : 0 <= ss l / INR (length l - ddof))
    by (unfold Rdiv; apply Rmult_le_pos;
        [apply ss_nonneg | left; apply Rinv_0_lt_compat; exact Hk]).
  assert (Hsq : sigma ^ 2 = ss l / INR (length l - ddof)).
  { rewrite <- H. simpl. rewrite Rmult_1_r. now apply sqrt_sqrt. }
  assert (Hne : ss l <> 0).
  { intro Z. apply Hs. rewrite <- H, Z. unfold Rdiv. rewrite Rmult_0_l. apply sqrt_0. }
  rewrite Hsq. replace (ss l / (ss l / INR (length l - ddof)) / INR (length l - ddof)) with 1
    by (field; split; lra).
  apply sqrt_1.
Qed.

End StdFacts.

(** ** Shapes of columns *)
Module ColumnFacts.

Lemma ss_singleton (x : R) : ss [x] = 0.
Proof.
  assert (Hm : mean [x] = x) by (unfold mean, nR; simpl; field).
  unfold ss. rewrite Hm. simpl. ring.
Qed.

Lemma ss_nonconst_length (l : list R) : ss l <> 0 -> (2 <= length l)%nat.
Proof.
  intro H. destruct l as [|x [|y t]]; simpl; try lia.
  - exfalso. apply H. reflexivity.
  - exfalso. apply H. apply ss_singleton.
Qed.

Lemma std_nonconst (ddof : nat) (l : list R) :
  ss l <> 0 -> (ddof < length l)%nat ->
  exists sigma, std ddof l = Some sigma /\ sigma <> 0.
Proof.
  intros Hss Hlt. exists (sqrt (ss l / INR (length l - ddof))). split.
  - unfold std. destruct (Nat.leb (length l) ddof) eqn:E; [|reflexivity].
    apply Nat.leb_le in E. lia.
  - apply Rgt_not_eq, sqrt_lt_R0. unfold Rdiv. apply Rmult_lt_0_compat.
    + pose proof (ss_nonneg l). lra.
    + apply Rinv_0_lt_compat, lt_0_INR. lia.
Qed.

Lemma std_none_nil (ddof : nat) (l : list R) :
  std ddof l = None -> (length l <= ddof)%nat.
Proof.
  unfold std. destruct (Nat.leb (length l) ddof) eqn:E; [|discriminate].
  intros _. now apply Nat.leb_le.
Qed.

Lemma dropna_some (l : list R) : Standardize.dropna (map Some l) = l.
Proof. induction l; simpl; congruence. Qed.

Lemma map_mul0 (l : list R) : map (fun v => v * 0) l = map (fun _ => 0) l.
Proof. apply map_ext. intro; ring. Qed.

Lemma map_Some_inj (a b : list R) : map Some a = map Some b -> a = b.
Proof.
  revert b; induction a as [|x t IH]; intros [|y u]; simpl; try discriminate; auto.
  intro H. injection H as -> H. f_equal. now apply IH.
Qed.

(** [std 0] and [std 1] cannot both be 1 on a two-row column. *)
Lemma std01_two_rows (z : list R) :
  length z = 2%nat -> std 0 z = Some 1 -> std 1 z = Some 1 -> False.
Proof.
  unfold std. intros Hl. rewrite Hl. simpl.
  intros H0 H1. injection H0 as H0. injection H1 as H1.
  assert (Hs := ss_nonneg z).
  match type of H0 with
  | sqrt ?a = 1 =>
      assert (E0 : a = 1) by (rewrite <- (sqrt_sqrt a) by lra; rewrite H0; ring)
  end.
  match type of H1 with
  | sqrt ?a = 1 =>
      assert (E1 : a = 1) by (rewrite <- (sqrt_sqrt a) by lra; rewrite H1; ring)
  end.
  lra.
Qed.

End ColumnFacts.
Import ColumnFacts.

(** ** Column lookup in a frame *)
Module FrameFacts.
Import Frame.
Local Open Scope string_scope.

Lemma has_col_set (df : frame) (c m : string) (v : column) :
  has_col (set_col df c v) m = has_col df m || String.eqb c m.
Proof.
  induction df as [|[k w] t IH]; simpl.
  - now rewrite orb_false_r.
  - destruct (String.eqb k c) eqn:Ekc; simpl.
    + apply String.eqb_eq in Ekc. subst k.
      destruct (String.eqb c m); simpl; [reflexivity|]. rewrite orb_false_r.
      reflexivity.
    + rewrite IH, orb_assoc. reflexivity.
Qed.

Lemma get_col_has (df : frame) (c : string) :
  has_col df c = true <-> exists v, get_col df c = Some v.
Proof.
  induction df as [|[k w] t IH]; simpl.
  - split; [discriminate | intros [v Hv]; discriminate].
  - destruct (String.eqb k c); simpl; [split; eauto|exact IH].
Qed.

Lemma column_of_has (df : frame) (c : string) :
  has_col df c = true -> exists v, column_of df c = Ok v.
Proof.
  intro H. apply get_col_has in H as [v Hv]. exists v. unfold column_of. now rewrite Hv.
Qed.

Lemma column_of_missing (df : frame) (c : string) :
  has_col df c = false -> column_of df c = Raise KeyError.
Proof.
  intro H. unfold column_of. destruct (get_col df c) eqn:E; [|reflexivity].
  assert (has_col df c = true) by (apply get_col_has; eauto). congruence.
Qed.

Lemma get_col_set_other (df : frame) (c m : string) (v : column) :
  c <> m -> get_col (set_col df c v) m = get_col df m.
Proof.
  intro Hne. induction df as [|[k w] t IH]; simpl.
  - destruct (String.eqb c m) eqn:E; [apply String.eqb_eq in E; congruence | reflexivity].
  - destruct (String.eqb k c) eqn:Ekc; simpl.
    + apply String.eqb_eq in Ekc. subst k.
      destruct (String.eqb c m) eqn:E; [apply String.eqb_eq in E; congruence | reflexivity].
    + destruct (String.eqb k m); [reflexivity | exact IH].
Qed.

Lemma get_col_set_same (df : frame) (c : string) (v : column) :
  get_col (set_col df c v) c = Some v.
Proof.
  induction df as [|[k w] t IH]; simpl.
  - now rewrite String.eqb_refl.
  - destruct (String.eqb k c) eqn:Ekc; simpl.
    + now rewrite Ekc.
    + rewrite Ekc. exact IH.
Qed.

(** The dictionary [z_cols] built from a metric list. *)
Lemma lookup_zcols (l : list string) (k : string) :
  lookup (map (fun m => (m, m ++ "_z")) l) k =
  if existsb (fun m => String.eqb m k) l then Ok (k ++ "_z") else Raise KeyError.
Proof.
  induction l as [|m t IH]; simpl; [reflexivity|].
  destruct (String.eqb m k) eqn:E; simpl; [|exact IH].
  apply String.eqb_eq in E. now subst.
Qed.

Lemma existsb_eqb_In (l : list string) (k : string) :
  existsb (fun m => String.eqb m k) l = true <-> In k l.
Proof.
  rewrite existsb_exists. split.
  - intros [m [Hin E]]. apply String.eqb_eq in E. now subst.
  - intro H. exists k. split; [exact H | apply String.eqb_refl].
Qed.

End FrameFacts.

(** ** [compute_isolation_index]: which configurations raise *)
Module IndexFacts.
Import Frame FrameFacts.
Local Open Scope string_scope.

Lemma lookup_raise (d : list (string * string)) (k : string) (e : exn) :
  lookup d k = Raise e -> e = KeyError.
Proof.
  induction d as [|[k' v] t IH]; simpl; [congruence|].
  destruct (String.eqb k' k); [discriminate | exact IH].
Qed.

Lemma zscore_metrics_spec (ms : list string) (out : frame)
    (zc : list (string * string)) :
  (forall m m', In m ms -> In m' ms -> m <> m' ++ "_z") ->
  match zscore_metrics ms out zc with
  | Ok (out', zc') =>
      Forall (fun m => has_col out m = true) ms /\
      zc' = app (rev (map (fun m => (m, m ++ "_z")) ms)) zc /\
      (forall c, has_col out c = true -> has_col out' c = true) /\
      Forall (fun m => has_col out' (m ++ "_z") = true) ms
  | Raise e => e = KeyError /\ exists m, In m ms /\ has_col out m = false
  end.
Proof.
  revert out zc. induction ms as [|m rest IH]; intros out zc Hcl; simpl.
  - repeat split; auto.
  - destruct (has_col out m) eqn:Hm; simpl.
    + destruct (column_of_has out m Hm) as [v Hv]. rewrite Hv.
      assert (Hcl' : forall a b, In a rest -> In b rest -> a <> b ++ "_z")
        by (intros a b Ha Hb; apply Hcl; right; assumption).
      specialize (IH (set_col out (m ++ "_z") (zscore_col v))
                     ((m, m ++ "_z") :: zc) Hcl').
      destruct (zscore_metrics rest _ _) as [[out' zc']|e].
      * destruct IH as [Hall [Hzc [Hmono Hz]]].
        split; [|split; [|split]].
        -- constructor; [exact Hm|].
           rewrite Forall_forall in Hall |- *. intros a Ha.
           specialize (Hall a Ha). rewrite has_col_set in Hall.
           destruct (String.eqb (m ++ "_z") a) eqn:E.
           ++ apply String.eqb_eq in E. exfalso.
              apply (Hcl a m); [right; exact Ha | left; reflexivity | symmetry; exact E].
           ++ now rewrite orb_false_r in Hall.
        -- rewrite Hzc. simpl. now rewrite <- app_assoc.
        -- intros c Hc. apply Hmono. rewrite has_col_set, Hc. reflexivity.
        -- constructor; [|exact Hz]. apply Hmono.
           rewrite has_col_set, String.eqb_refl, orb_true_r. reflexivity.
      * destruct IH as [He [a [Ha Hna]]]. split; [exact He|].
        exists a. split; [right; exact Ha|].
        rewrite has_col_set in Hna. now apply orb_false_iff in Hna as [Hna _].
    + split; [reflexivity|]. exists m. split; [left; reflexivity | exact Hm].
Qed.

Lemma weighted_sum_spec (ws : list (string * R)) (out : frame)
    (zc : list (string * string)) (idx : acc) :
  (forall k z, lookup zc k = Ok z -> has_col out z = true) ->
  match weighted_sum ws out zc idx with
  | Ok _ => forall k, In k (map fst ws) -> exists z, lookup zc k = Ok z
  | Raise e => e = KeyError /\
      exists k, In k (map fst ws) /\ forall z, lookup zc k <> Ok z
  end.
Proof.
  intro Hz. revert idx. induction ws as [|[k w] rest IH]; intro idx; simpl.
  - intros _ [].
  - destruct (lookup zc k) as [z|e] eqn:Ek.
    + destruct (column_of_has out z (Hz k z Ek)) as [c Hc]. rewrite Hc.
      specialize (IH (acc_add_weighted idx w c)).
      destruct (weighted_sum rest out zc _) as [idx'|e].
      * intros k' [<- | Hk']; [eauto | exact (IH k' Hk')].
      * destruct IH as [He [k' [Hk' Hn]]]. split; [exact He|].
        exists k'. split; [right; exact Hk' | exact Hn].
    + split; [exact (lookup_raise zc k e Ek)|].
      exists k. split; [left; reflexivity | intros z; congruence].
Qed.

Lemma lookup_built (ms : list string) (k z : string) :
  lookup (app (rev (map (fun m => (m, m ++ "_z")) ms)) []) k = Ok z <->
  In k ms /\ z = k ++ "_z".
Proof.
  rewrite app_nil_r, <- map_rev, lookup_zcols.
  destruct (existsb (fun m => String.eqb m k) (rev ms)) eqn:E.
  - apply existsb_eqb_In, in_rev in E. split.
    + intro H. injection H as <-. auto.
    + intros [_ ->]. reflexivity.
  - split; [discriminate|]. intros [Hin _].
    apply in_rev, existsb_eqb_In in Hin. congruence.
Qed.

End IndexFacts.

(** ** [compute_pca_index]: effects on the store *)
Module PcaFacts.
Import Frame FrameFacts.
Local Open Scope string_scope.

Lemma existsb_negb {A} (f : A -> bool) (l : list A) :
  existsb (fun c => negb (f c)) l = negb (forallb f l).
Proof. induction l as [|a t IH]; simpl; [reflexivity|]. rewrite IH. now destruct (f a). Qed.

Lemma heap_upd_same (st : store) (r : nat) (df : frame) :
  heap (store_upd st r df) r = df.
Proof. simpl. now rewrite Nat.eqb_refl. Qed.

Lemma heap_upd_other (st : store) (r o : nat) (df : frame) :
  o <> r -> heap (store_upd st r df) o = heap st o.
Proof. intro H. simpl. apply Nat.eqb_neq in H. now rewrite H. Qed.

Lemma fill_missing_z_spec (r : nat) (st st1 : store) (res : result unit) :
  fill_missing_z r st = (st1, res) ->
  next st1 = next st /\
  (forall o, o <> r -> heap st1 o = heap st o) /\
  (forallb (has_col (heap st r)) needed = true ->
     heap st1 r = heap st r /\ res = Ok tt) /\
  (forallb (has_col (heap st r)) needed = false ->
   forallb (has_col (heap st r)) raw_needed = true ->
     res = Ok tt /\
     exists a b c,
       get_col (heap st r) "pct_age65p" = Some a /\
       get_col (heap st r) "pct_single65p" = Some b /\
       get_col (heap st r) "poverty_rate" = Some c /\
       heap st1 r =
         set_col (set_col (set_col (heap st r)
           "pct_age65p_z" (zscore_pca_col a))
           "pct_single65p_z" (zscore_pca_col b))
           "poverty_rate_z" (zscore_pca_col c)) /\
  (forallb (has_col (heap st r)) needed = false ->
   forallb (has_col (heap st r)) raw_needed = false ->
     st1 = st /\ res = Raise ValueError).
Proof.
  intro Hrun. unfold fill_missing_z, bind, get_obj in Hrun.
  rewrite existsb_negb in Hrun.
  set (df := heap st r) in *.
  destruct (forallb (has_col df) needed) eqn:Hneed.
  - unfold ret in Hrun. injection Hrun as <- <-.
    repeat split; intros; try discriminate; reflexivity.
  - destruct (forallb (has_col df) raw_needed) eqn:Hraw; simpl in Hrun.
    + unfold raw_needed in Hraw. simpl in Hraw.
      apply andb_prop in Hraw as [H1 Hraw]. apply andb_prop in Hraw as [H2 Hraw].
      apply andb_prop in Hraw as [H3 _].
      destruct (get_col_has df "pct_age65p") as [[a Ha] _]; [exact H1|].
      destruct (get_col_has df "pct_single65p") as [[b Hb] _]; [exact H2|].
      destruct (get_col_has df "poverty_rate") as [[c Hc] _]; [exact H3|].
      unfold assign_z, bind, get_obj, lift, set_obj, column_of in Hrun.
      fold df in Hrun. rewrite Ha in Hrun.
      rewrite heap_upd_same, get_col_set_other, Hb in Hrun by discriminate.
      rewrite heap_upd_same, get_col_set_other, get_col_set_other, Hc in Hrun
        by discriminate.
      injection Hrun as <- <-.
      split; [reflexivity|]. split.
      * intros o Ho. rewrite !heap_upd_other by exact Ho. reflexivity.
      * split; [discriminate|]. split; [|discriminate].
        intros _ _. split; [reflexivity|]. exists a, b, c.
        repeat split; try assumption. rewrite !heap_upd_same. reflexivity.
    + unfold raise in Hrun. injection Hrun as <- <-.
      repeat split; intros; try discriminate; reflexivity.
Qed.

Lemma pca_from_spec (pca : list (list R) -> list R) (r : nat)
    (st st' : store) (res : result nat) :
  pca_from pca r st = (st', res) ->
  (forall o, (o < next st)%nat -> heap st' o = heap st o) /\
  (forall r', res = Ok r' ->
     r' = next st /\
     exists X v, design_matrix (heap st r) = Ok X /\
       align_sign (heap st r) (standardize_scores (pca X)) = Ok v /\
       heap st' r' = set_col (heap st r) "iso_index_pca" v).
Proof.
  intro Hrun. unfold pca_from, bind, get_obj, lift in Hrun.
  destruct (design_matrix (heap st r)) as [X|e] eqn:EX;
    [|injection Hrun as <- <-; split; [reflexivity | discriminate]].
  destruct (align_sign (heap st r) (standardize_scores (pca X))) as [v|e] eqn:Ev;
    [|injection Hrun as <- <-; split; [reflexivity | discriminate]].
  destruct (negb (Nat.eqb (length v) (nrows (heap st r)))).
  - unfold raise in Hrun. injection Hrun as <- <-. split; [reflexivity | discriminate].
  - unfold new_obj in Hrun. injection Hrun as <- <-. split.
    + intros o Ho. simpl. destruct (Nat.eqb o (next st)) eqn:E; [|reflexivity].
      apply Nat.eqb_eq in E. lia.
    + intros r' Hr'. injection Hr' as <-. split; [reflexivity|].
      exists X, v. repeat split; try assumption. simpl. now rewrite Nat.eqb_refl.
Qed.

(** Running [compute_pca_index] is running the two steps in sequence. *)
Lemma compute_pca_index_split (pca : list (list R) -> list R) (r : nat)
    (st st' : store) (res : result nat) :
  compute_pca_index pca r st = (st', res) ->
  exists st1 res1, fill_missing_z r st = (st1, res1) /\
    ((res1 = Ok tt /\ pca_from pca r st1 = (st', res)) \/
     (exists e, res1 = Raise e /\ st' = st1 /\ res = Raise e)).
Proof.
  unfold compute_pca_index, bind at 1.
  destruct (fill_missing_z r st) as [st1 [[]|e]] eqn:E; intro H.
  - exists st1, (Ok tt). split; [reflexivity|]. left. auto.
  - injection H as <- <-. exists st1, (Raise e). split; [reflexivity|].
    right. exists e. auto.
Qed.

End PcaFacts.

(** ** Sign alignment and standardisation of the PC1 scores *)
Module AlignFacts.
Import Frame FrameFacts.
Local Open Scope string_scope.

Lemma all_some_map (l : list R) : all_some (map Some l) = Some l.
Proof. induction l as [|x t IH]; simpl; [reflexivity|]. now rewrite IH. Qed.

Lemma sumR_opp (l : list R) : sumR (map Ropp l) = - sumR l.
Proof. induction l as [|x t IH]; simpl; [ring | rewrite IH; ring]. Qed.

Lemma mean_opp (l : list R) : mean (map Ropp l) = - mean l.
Proof.
  unfold mean, nR. rewrite sumR_opp, length_map.
  destruct (Req_dec (INR (length l)) 0) as [Z|NZ].
  - rewrite Z. unfold Rdiv. rewrite Rinv_0. ring.
  - field. exact NZ.
Qed.

Lemma ss_opp (l : list R) : ss (map Ropp l) = ss l.
Proof.
  unfold ss. rewrite mean_opp, map_map. f_equal. apply map_ext. intro; ring.
Qed.

Lemma std_opp (ddof : nat) (l : list R) : std ddof (map Ropp l) = std ddof l.
Proof. unfold std. now rewrite length_map, ss_opp. Qed.

Lemma ss_cov_opp (a b : list R) : ss_cov (map Ropp a) b = - ss_cov a b.
Proof.
  unfold ss_cov. rewrite mean_opp. generalize (mean a) (mean b). intros ma mb.
  revert b. induction a as [|x t IH]; intros [|y u]; simpl; try ring.
  rewrite IH. ring.
Qed.

Lemma corrcoef_some (a b : list R) :
  ss a <> 0 -> ss b <> 0 ->
  corrcoef (map Some a) (map Some b) = Some (ss_cov a b / sqrt (ss a * ss b)).
Proof.
  intros Ha Hb. unfold corrcoef. rewrite !all_some_map.
  destruct (Req_EM_T (ss a * ss b) 0) as [Z|_]; [|reflexivity].
  apply Rmult_integral in Z. tauto.
Qed.

Lemma ss_of_std1 (z : list R) : std 0 z = Some 1 -> ss z <> 0.
Proof.
  unfold std. destruct (Nat.leb (length z) 0); [discriminate|].
  intros H. injection H as H. intro Z. rewrite Z in H. unfold Rdiv in H.
  rewrite Rmult_0_l, sqrt_0 in H. lra.
Qed.

Lemma standardize_scores_ok (s : list R) (sd : R) :
  std 0 s = Some sd -> sd <> 0 ->
  standardize_scores s = map Some (map (fun x => (x - mean s) / sd) s).
Proof.
  intros E N. unfold standardize_scores. rewrite E.
  destruct (Req_EM_T sd 0); [contradiction|]. now rewrite map_map.
Qed.

(** Sign alignment returns the scores or their negation, and the result
    is not negatively correlated with [iso_index]. *)
Lemma align_sign_spec (df : frame) (zs iso : list R) (v : column) :
  get_col df "iso_index" = Some (map Some iso) ->
  ss iso <> 0 -> ss zs <> 0 ->
  align_sign df (map Some zs) = Ok v ->
  exists zs', v = map Some zs' /\ (zs' = zs \/ zs' = map Ropp zs) /\
    exists c, corrcoef (map Some zs') (map Some iso) = Some c /\ 0 <= c.
Proof.
  intros Hiso Hvi Hvz Hal. unfold align_sign in Hal.
  assert (Hh : has_col df "iso_index" = true) by (apply get_col_has; eauto).
  rewrite Hh in Hal. unfold column_of in Hal. rewrite Hiso in Hal.
  destruct (negb (Nat.eqb _ _)); [discriminate|].
  rewrite (corrcoef_some zs iso Hvz Hvi) in Hal.
  destruct (Rlt_dec (ss_cov zs iso / sqrt (ss zs * ss iso)) 0) as [Lt|Ge].
  - injection Hal as <-. exists (map Ropp zs). split; [now rewrite !map_map|].
    split; [now right|].
    rewrite corrcoef_some by (rewrite ?ss_opp; assumption).
    eexists. split; [reflexivity|]. rewrite ss_cov_opp, ss_opp.
    unfold Rdiv in *. rewrite <- Ropp_mult_distr_l. lra.
  - injection Hal as <-. exists zs. split; [reflexivity|]. split; [now left|].
    eexists. split; [apply corrcoef_some; assumption|]. lra.
Qed.

End AlignFacts.

(** ** Evaluation of the sample run *)
Module SampleFacts.
Import Frame Samples.
Local Open Scope string_scope.

Lemma ss02 : ss [0; 2] = 2.
Proof. unfold ss, mean, nR. simpl. field. Qed.

Lemma std02 : std 0 [0; 2] = Some 1.
Proof.
  unfold std. simpl Nat.leb. cbv iota. rewrite ss02. f_equal. simpl.
  replace (2 / (1 + 1)) with 1 by field. apply sqrt_1.
Qed.

Lemma std_scores02 : standardize_scores [0; 2] = map Some [-1; 1].
Proof.
  rewrite (AlignFacts.standardize_scores_ok _ 1 std02 R1_neq_R0).
  assert (Hm : mean [0; 2] = 1) by (unfold mean, nR; simpl; field).
  rewrite Hm. cbn [map].
  replace ((0 - 1) / 1) with (-1) by field. replace ((2 - 1) / 1) with 1 by field.
  reflexivity.
Qed.

Lemma align02 :
  align_sign pca_sample_frame (map Some [-1; 1]) = Ok (map Some [-1; 1]).
Proof.
  assert (Hc : corrcoef [Some (-1); Some 1] [Some 0; Some 2] = Some 1).
  { assert (Hs1 : ss [-1; 1] = 2) by (unfold ss, mean, nR; simpl; field).
    change [Some (-1); Some 1] with (map Some [-1; 1]).
    change [Some 0; Some 2] with (map Some [0; 2]).
    rewrite (AlignFacts.corrcoef_some [-1; 1] [0; 2]) by (rewrite ?ss02, ?Hs1; lra).
    rewrite ss02, Hs1. f_equal.
    assert (Hcv : ss_cov [-1; 1] [0; 2] = 2) by (unfold ss_cov, mean, nR; simpl; field).
    rewrite Hcv. replace (2 * 2) with (2 ^ 2) by ring. rewrite sqrt_pow2 by lra. field. }
  unfold align_sign. simpl. rewrite Hc.
  destruct (Rlt_dec 1 0); [lra | reflexivity].
Qed.

Lemma run02 :
  compute_pca_index first_coordinate 0 pca_sample_store =
  new_obj (set_col pca_sample_frame "iso_index_pca" (map Some [-1; 1]))
    pca_sample_store.
Proof.
  unfold compute_pca_index, fill_missing_z, pca_from, bind, get_obj, ret, lift.
  cbn -[standardize_scores align_sign IZR].
  rewrite std_scores02, align02. reflexivity.
Qed.

End SampleFacts.

(** * Claims *)
Module Claims.
Import Standardize.

(** C2 (corrected).  The population-std standardisers ([_zscore] of
    uix/index.py, [zscore] of 07_pca_iso_index.py, [safe_z] of
    11_build_final_index.py) return a column whose population std is 1,
    while the [transit_z] of 09_ingest_transit_alt.py and the [access_z]
    of 07_ingest_tokyo_access.py divide by pandas' default sample std
    (N-1): their output has sample std 1.  Stated for any column of
    non-zero variance. *)
Theorem C2_denominator_by_site (l : list R) (Hne : ss l <> 0) :
  std 0 (zscore_uix l) = Some 1 /\
  std 0 (safe_z l) = Some 1 /\
  std 0 (zscore_pca l) = Some 1 /\
  (exists z, transit_z l = map Some z /\ std 1 z = Some 1) /\
  (exists z, access_z (map Some l) = Ok z /\ std 1 z = Some 1).
Proof.
  pose proof (ss_nonconst_length l Hne) as Hlen.
  destruct (std_nonconst 0 l Hne ltac:(lia)) as [s0 [E0 N0]].
  destruct (std_nonconst 1 l Hne ltac:(lia)) as [s1 [E1 N1]].
  destruct (StdFacts.standardize_std 0 l s0 E0 N0) as [_ P0].
  destruct (StdFacts.standardize_std 1 l s1 E1 N1) as [_ P1].
  unfold zscore_uix, safe_z, zscore_pca, transit_z, access_z.
  rewrite dropna_some, E0, E1.
  destruct (Req_EM_T s0 0) as [Z|_]; [contradiction|].
  destruct (Req_EM_T s1 0) as [Z|_]; [contradiction|].
  repeat split; try exact P0.
  - exists (map (fun x => (x - mean l) / s1) l). split; [|exact P1].
    rewrite map_map. reflexivity.
  - exists (map (fun x => (x - mean l) / s1) l). split; [reflexivity | exact P1].
Qed.

Lemma C2_denominator_by_site_witness :
  ss [0; 2] <> 0 /\ std 0 (zscore_uix [0; 2]) = Some 1.
Proof.
  assert (H : ss [0; 2] <> 0).
  { assert (Hm : mean [0; 2] = 1) by (unfold mean, nR; simpl; field).
    unfold ss. rewrite Hm. simpl. lra. }
  split; [exact H|].
  apply (C2_denominator_by_site [0; 2] H).
Defined.

(** C2 counterexample: on the station densities [0; 2] the transit
    z-score of 09_ingest_transit_alt.py differs from the population
    z-score of uix/index.py. *)
Lemma C2_transit_uses_sample_std :
  transit_z [0; 2] <> map Some (zscore_uix [0; 2]).
Proof.
  intro Heq.
  assert (Hne : ss [0; 2] <> 0).
  { assert (Hm : mean [0; 2] = 1) by (unfold mean, nR; simpl; field).
    unfold ss. rewrite Hm. simpl. lra. }
  destruct (std_nonconst 0 _ Hne ltac:(simpl; lia)) as [s0 [E0 N0]].
  destruct (std_nonconst 1 _ Hne ltac:(simpl; lia)) as [s1 [E1 N1]].
  destruct (StdFacts.standardize_std 0 _ s0 E0 N0) as [_ P0].
  destruct (StdFacts.standardize_std 1 _ s1 E1 N1) as [_ P1].
  unfold transit_z, zscore_uix in Heq. rewrite E0, E1 in Heq.
  destruct (Req_EM_T s0 0) as [Z|_]; [contradiction|].
  destruct (Req_EM_T s1 0) as [Z|_]; [contradiction|].
  rewrite <- (map_map (fun x => (x - mean [0; 2]) / s1) Some) in Heq.
  apply map_Some_inj in Heq. rewrite Heq in P1.
  eapply std01_two_rows; [| exact P0 | exact P1]. reflexivity.
Qed.

(** C3 (corrected).  When the std a site computes is zero or undefined
    (NaN), none of the NaN-aware standardisers raises, but only [_zscore]
    (uix/index.py) returns an all-zero column.  [safe_z]
    (11_build_final_index.py) returns [x * 0]: zero where the input is a
    number, NaN where it is NaN.  [zscore] (07_pca_iso_index.py) tests only
    [sigma == 0]: it returns all zeros when the population std is 0 and an
    all-NaN column when the std is NaN (no number in the column).
    [transit_z] (09_ingest_transit_alt.py) is all NaN when its sample std
    is zero or NaN, and the access ingest of 07_ingest_tokyo_access.py
    raises [ValueError]. *)
Theorem C3_zero_variance_sites (s : Frame.column) (d : list R) (raw : list (option R))
  (Hs : std 0 (dropna s) = None \/ std 0 (dropna s) = Some 0)
  (Hd : std 1 d = None \/ std 1 d = Some 0)
  (Hraw : std 1 (dropna raw) = None \/ std 1 (dropna raw) = Some 0) :
  Frame.zscore_col s = map (fun _ => Some 0) s /\
  Scripts.safe_z_col s = map (option_map (fun _ => 0)) s /\
  (std 0 (dropna s) = Some 0 -> Frame.zscore_pca_col s = map (fun _ => Some 0) s) /\
  (std 0 (dropna s) = None -> Frame.zscore_pca_col s = map (fun _ => None) s) /\
  transit_z d = map (fun _ => None) d /\
  access_z raw = Raise ValueError.
Proof.
  assert (Hz : forall x : R, x * 0 = 0) by (intro; ring).
  repeat split.
  - unfold Frame.zscore_col. destruct Hs as [-> | ->]; [reflexivity|].
    destruct (Req_EM_T 0 0); [reflexivity | congruence].
  - unfold Scripts.safe_z_col.
    assert (Hm : map (option_map (fun v => v * 0)) s = map (option_map (fun _ => 0)) s).
    { apply map_ext. intros [x|]; simpl; [now rewrite Hz | reflexivity]. }
    destruct Hs as [-> | ->]; [exact Hm|].
    destruct (Req_EM_T 0 0); [exact Hm | congruence].
  - intro E. unfold Frame.zscore_pca_col. rewrite E.
    destruct (Req_EM_T 0 0); [reflexivity | congruence].
  - intro E. unfold Frame.zscore_pca_col. rewrite E. reflexivity.
  - unfold transit_z. destruct Hd as [-> | ->]; [reflexivity|].
    apply map_ext. intro x. destruct (Req_EM_T 0 0); [reflexivity | congruence].
  - unfold access_z. destruct Hraw as [-> | ->]; [reflexivity|].
    destruct (Req_EM_T 0 0); [reflexivity | congruence].
Qed.

Lemma std_const_pair (c : R) (ddof : nat) :
  (ddof < 2)%nat -> std ddof [c; c] = Some 0.
Proof.
  intro H.
  assert (Hm : mean [c; c] = c) by (unfold mean, nR; simpl; field).
  assert (Hs : ss [c; c] = 0) by (unfold ss; rewrite Hm; simpl; ring).
  unfold std. rewrite Hs. unfold Rdiv. rewrite Rmult_0_l, sqrt_0.
  destruct ddof as [|[|d]]; [reflexivity | reflexivity | lia].
Qed.

Lemma C3_zero_variance_sites_witness :
  Frame.zscore_col [Some 3; None; Some 3] = [Some 0; Some 0; Some 0] /\
  Scripts.safe_z_col [Some 3; None; Some 3] = [Some 0; None; Some 0] /\
  access_z [Some 5; Some 5] = Raise ValueError.
Proof.
  destruct (C3_zero_variance_sites [Some 3; None; Some 3] [4; 4] [Some 5; Some 5]
              (or_intror (std_const_pair 3 0 ltac:(lia)))
              (or_intror (std_const_pair 4 1 ltac:(lia)))
              (or_intror (std_const_pair 5 1 ltac:(lia))))
    as [H1 [H2 [_ [_ [_ H6]]]]].
  split; [exact H1 | split; [exact H2 | exact H6]].
Defined.

(** C3 counterexample: a zero or undefined std does not give an all-zero
    column at every site.  The constant access column [5; 5] has sample
    std 0 and the access ingest raises; the all-NaN column has no
    population std and [zscore] of 07_pca_iso_index.py returns it all NaN;
    [safe_z] keeps the NaN row of [5; NaN; 5]; and the one-ward station
    density [4] has no sample std, so its [transit_z] is NaN. *)
Lemma C3_zero_std_not_all_zero :
  access_z [Some 5; Some 5] = Raise ValueError /\
  Frame.zscore_pca_col [None; None] = [None; None] /\
  Scripts.safe_z_col [Some 5; None; Some 5] = [Some 0; None; Some 0] /\
  transit_z [4] = [None].
Proof.
  split; [|split; [reflexivity | split; [|reflexivity]]].
  - unfold access_z. simpl dropna. rewrite std_const_pair by lia.
    destruct (Req_EM_T 0 0); [reflexivity | congruence].
  - unfold Scripts.safe_z_col. simpl Standardize.dropna.
    rewrite std_const_pair by lia.
    destruct (Req_EM_T 0 0) as [_|]; [|congruence].
    simpl. rewrite Rmult_0_r. reflexivity.
Qed.

(** ** Lemmas on the labelling sites *)
Lemma tokyo_label_spec (p_thresh p : R) (q : nat) :
  (1 <= q <= 4)%nat ->
  Lisa.tokyo_classify_one p_thresh p q = Lisa.spec_cluster_label p_thresh p q.
Proof.
  intro Hq. unfold Lisa.tokyo_classify_one, Lisa.spec_cluster_label.
  destruct (Rlt_dec p p_thresh);
    destruct q as [|[|[|[|[|q]]]]]; try lia; reflexivity.
Qed.

Lemma notebook_label_spec (p : R) (q : nat) :
  (1 <= q <= 4)%nat ->
  Lisa.notebook_cluster_label p q = Some (Lisa.spec_cluster_label 0.05 p q).
Proof.
  intro Hq. unfold Lisa.notebook_cluster_label, Lisa.notebook_cluster_raw,
    Lisa.spec_cluster_label.
  destruct (Rlt_dec p 0.05);
    destruct q as [|[|[|[|[|q]]]]]; try lia; reflexivity.
Qed.

(** C1 (code bug).  With [p_sim = 0.01 < 0.05] and quadrant code 2
    (Low-High), the Osaka labeller of 11_spatial_stats_osaka.py returns
    "Low-Low", while the spec's mapping, the Tokyo labeller and the Osaka
    notebook all return "Low-High". *)
Theorem C1_osaka_label_swaps_codes_2_3 :
  Lisa.osaka_cluster_label 0.05 0.01 2 = "Low-Low"%string /\
  Lisa.osaka_cluster_label 0.05 0.01 3 = "Low-High"%string /\
  Lisa.spec_cluster_label 0.05 0.01 2 = "Low-High"%string /\
  Lisa.tokyo_classify_one 0.05 0.01 2 = "Low-High"%string /\
  Lisa.notebook_cluster_label 0.01 2 = Some "Low-High"%string.
Proof.
  unfold Lisa.osaka_cluster_label, Lisa.spec_cluster_label,
    Lisa.tokyo_classify_one, Lisa.notebook_cluster_label,
    Lisa.notebook_cluster_raw.
  destruct (Rle_dec 0.05 0.01) as [H|_]; [lra|].
  destruct (Rlt_dec 0.01 0.05) as [_|H]; [|lra].
  repeat split; reflexivity.
Qed.

(** C4 (corrected).  Every weight set is non-negative; the default
    isolation-index weights and the final-index weights sum to 1, while
    the designed D-IRI coefficients sum to 0.85. *)
Theorem C4_weight_sets :
  Forall (fun kw => 0 <= snd kw) Weights.default_weights /\
  Forall (fun kw => 0 <= snd kw) Weights.designed_weights /\
  Forall (fun kw => 0 <= snd kw) Weights.final_weights /\
  Weights.total Weights.default_weights = 1 /\
  Weights.total Weights.final_weights = 1 /\
  Weights.total Weights.designed_weights = 0.85.
Proof.
  unfold Weights.total, Weights.default_weights, Weights.designed_weights,
    Weights.final_weights.
  repeat split; repeat constructor; simpl; lra.
Qed.

(** C4 counterexample: the designed D-IRI weights do not sum to 1. *)
Lemma C4_designed_weights_sum :
  Weights.total Weights.designed_weights <> 1.
Proof.
  unfold Weights.total, Weights.designed_weights. simpl. lra.
Qed.

(** ** Renormalisation of a weight set *)
Lemma total_scale (c : R) (ws : Weights.weight_set) :
  Weights.total (map (fun kw => (fst kw, snd kw * c)) ws) = Weights.total ws * c.
Proof.
  unfold Weights.total. induction ws as [|[k w] t IH]; simpl; [ring|].
  rewrite IH. ring.
Qed.

(** C5 (confirmed).  Dropping the 0.20 access weight from
    {demo 0.40, socio 0.30, transit 0.10} and dividing by the remaining
    total gives exactly the final-index weights {0.50, 0.375, 0.125};
    in general that renormalisation multiplies every remaining weight by
    one positive factor (ratios preserved) and the result sums to 1. *)
Theorem C5_drop_renormalize :
  Weights.final_weights =
    Weights.spec_drop_renormalize "access_component_z"%string
      Weights.final_weights_with_access /\
  (forall (drop : string) (ws : Weights.weight_set),
     let kept := filter (fun kw => negb (String.eqb (fst kw) drop)) ws in
     0 < Weights.total kept ->
     (exists c, 0 < c /\
        Weights.spec_drop_renormalize drop ws =
          map (fun kw => (fst kw, snd kw * c)) kept) /\
     Weights.total (Weights.spec_drop_renormalize drop ws) = 1).
Proof.
  split.
  - unfold Weights.spec_drop_renormalize, Weights.final_weights,
      Weights.final_weights_with_access, Weights.total.
    simpl.
    repeat match goal with
           | |- (_ :: _) = (_ :: _) => f_equal
           | |- (_, _) = (_, _) => f_equal
           | |- @eq R _ (_ / ?d) => replace d with 0.80 by lra; lra
           | |- _ => reflexivity
           end.
  - intros drop ws kept Hpos.
    assert (E : Weights.spec_drop_renormalize drop ws =
                map (fun kw => (fst kw, snd kw * / Weights.total kept)) kept).
    { unfold Weights.spec_drop_renormalize. fold kept.
      apply map_ext. intros [k w]. reflexivity. }
    split.
    + exists (/ Weights.total kept). split; [now apply Rinv_0_lt_compat | exact E].
    + rewrite E, total_scale. field. lra.
Qed.

Lemma C5_drop_renormalize_witness :
  0 < Weights.total
        (filter (fun kw => negb (String.eqb (fst kw) "access_component_z"%string))
           Weights.final_weights_with_access) /\
  Weights.total (Weights.spec_drop_renormalize "access_component_z"%string
                   Weights.final_weights_with_access) = 1.
Proof.
  assert (H : 0 < Weights.total
        (filter (fun kw => negb (String.eqb (fst kw) "access_component_z"%string))
           Weights.final_weights_with_access))
    by (unfold Weights.total; simpl; lra).
  split; [exact H|].
  exact (proj2 (proj2 C5_drop_renormalize "access_component_z"%string
                  Weights.final_weights_with_access H)).
Defined.

(** ** Extremes of a column *)
Lemma fold_min_bound (t : list R) (x : R) :
  fold_left Rmin t x <= x /\ Forall (fun y => fold_left Rmin t x <= y) t.
Proof.
  revert x. induction t as [|a t IH]; intro x; simpl; [split; [lra | constructor]|].
  destruct (IH (Rmin x a)) as [H1 H2].
  pose proof (Rmin_l x a). pose proof (Rmin_r x a).
  split; [lra | constructor; [lra | exact H2]].
Qed.

Lemma fold_max_bound (t : list R) (x : R) :
  x <= fold_left Rmax t x /\ Forall (fun y => y <= fold_left Rmax t x) t.
Proof.
  revert x. induction t as [|a t IH]; intro x; simpl; [split; [lra | constructor]|].
  destruct (IH (Rmax x a)) as [H1 H2].
  pose proof (Rmax_l x a). pose proof (Rmax_r x a).
  split; [lra | constructor; [lra | exact H2]].
Qed.

Lemma series_bounds (s : list R) (y : R) :
  In y s -> Normalize.series_min s <= y <= Normalize.series_max s.
Proof.
  destruct s as [|x t]; [intros []|].
  unfold Normalize.series_min, Normalize.series_max.
  destruct (fold_min_bound t x) as [Hm1 Hm2].
  destruct (fold_max_bound t x) as [HM1 HM2].
  intros [<- | Hin]; [lra|].
  rewrite Forall_forall in Hm2, HM2.
  specialize (Hm2 y Hin). specialize (HM2 y Hin). lra.
Qed.

Lemma in_combine_map (f : R -> R) (s : list R) (x y : R) :
  In (x, y) (combine s (map f s)) -> In x s /\ y = f x.
Proof.
  induction s as [|a t IH]; simpl; [intros []|].
  intros [H | H].
  - injection H as -> ->. auto.
  - destruct (IH H) as [H1 H2]. auto.
Qed.

(** C8 (confirmed).  [minmax_0_100] keeps the length of its column, all
    its values lie in [0, 100], a constant column (max = min, including a
    single row) maps entirely to 50, and otherwise the rows holding the
    minimum map to 0 and the rows holding the maximum map to 100. *)
Theorem C8_minmax_0_100 (series : list R) :
  length (Normalize.minmax_0_100 series) = length series /\
  Forall (fun y => 0 <= y <= 100) (Normalize.minmax_0_100 series) /\
  (Normalize.series_max series = Normalize.series_min series ->
     Normalize.minmax_0_100 series = map (fun _ => 50) series) /\
  (Normalize.series_max series <> Normalize.series_min series ->
     forall x y, In (x, y) (combine series (Normalize.minmax_0_100 series)) ->
       (x = Normalize.series_min series -> y = 0) /\
       (x = Normalize.series_max series -> y = 100)).
Proof.
  destruct series as [|x0 t].
  { simpl. split; [reflexivity|]. split; [constructor|].
    split; [intros; reflexivity|]. intros ? ? ? []. }
  set (series := x0 :: t).
  assert (Hle : Normalize.series_min series <= Normalize.series_max series).
  { pose proof (series_bounds series x0 ltac:(left; reflexivity)). lra. }
  set (mn := Normalize.series_min series) in *.
  set (mx := Normalize.series_max series) in *.
  assert (Hmm : Normalize.minmax_0_100 series =
                if Req_EM_T (mx - mn) 0 then map (fun _ => 50) series
                else map (fun x => 100 * (x - mn) / (mx - mn)) series)
    by reflexivity.
  rewrite Hmm.
  destruct (Req_EM_T (mx - mn) 0) as [Z|NZ].
  - split; [apply length_map|]. split.
    + rewrite Forall_map. apply Forall_forall. intros; lra.
    + split; [intros _; reflexivity|].
      intro Hne. exfalso. apply Hne. lra.
  - split; [apply length_map|]. split.
    + rewrite Forall_map. apply Forall_forall. intros y Hy.
      pose proof (series_bounds series y Hy) as [H1 H2]. fold mn mx in H1, H2.
      assert (Hd : 0 < mx - mn) by lra.
      split.
      * apply Rmult_le_pos; [lra | left; now apply Rinv_0_lt_compat].
      * apply Rmult_le_reg_r with (r := mx - mn); [exact Hd|].
        unfold Rdiv. rewrite Rmult_assoc, Rinv_l by lra. nra.
    + split; [intros Heq; exfalso; apply NZ; lra|].
      intros _ x y Hin. apply in_combine_map in Hin as [_ ->].
      split; intros ->; field; lra.
Qed.

(** C7 (corrected).  Provided no configured metric is named like the
    [_z] column of another configured metric, [compute_isolation_index]
    raises [KeyError] exactly when a configured metric is absent from the
    table or a weight names a metric outside the configured metric list
    (so a weighted metric absent from the table always raises); it raises
    nothing else, and a normal return carries a [<metric>_z] column per
    metric and the index column. *)
Theorem C7_isolation_index_errors (df : Frame.frame)
  (config : Frame.IsolationIndexConfig)
  (Hclash : forall m m', In m (Frame.metrics config) ->
              In m' (Frame.metrics config) -> m <> (m' ++ "_z")%string) :
  (Frame.compute_isolation_index df config = Raise KeyError <->
     (exists m, In m (Frame.metrics config) /\ Frame.has_col df m = false) \/
     (exists k, In k (map fst (Frame.weights config)) /\
                ~ In k (Frame.metrics config))) /\
  (forall e, Frame.compute_isolation_index df config = Raise e -> e = KeyError) /\
  (forall out, Frame.compute_isolation_index df config = Ok out ->
     Forall (fun m => Frame.has_col out (m ++ "_z")%string = true)
            (Frame.metrics config) /\
     Frame.has_col out (Frame.index_col config) = true).
Proof.
  unfold Frame.compute_isolation_index.
  pose proof (IndexFacts.zscore_metrics_spec (Frame.metrics config) df [] Hclash)
    as Hzm.
  destruct (Frame.zscore_metrics (Frame.metrics config) df [])
    as [[out' zc']|e] eqn:Ezm.
  - destruct Hzm as [Hall [Hzc [Hmono Hz]]].
    assert (Hlk : forall k z, Frame.lookup zc' k = Ok z -> Frame.has_col out' z = true).
    { intros k z Hk. rewrite Hzc in Hk. apply IndexFacts.lookup_built in Hk as [Hin ->].
      rewrite Forall_forall in Hz. now apply Hz. }
    pose proof (IndexFacts.weighted_sum_spec (Frame.weights config) out' zc'
                  (Frame.Scalar 0) Hlk) as Hws.
    destruct (Frame.weighted_sum _ _ _ _) as [idx|e'].
    + split; [|split].
      * split; [discriminate|]. intros [[m [Hm Hna]] | [k [Hk Hnk]]].
        -- rewrite Forall_forall in Hall. rewrite (Hall m Hm) in Hna. discriminate.
        -- destruct (Hws k Hk) as [z Hkz]. rewrite Hzc in Hkz.
           apply IndexFacts.lookup_built in Hkz as [Hin _]. contradiction.
      * intros e He. discriminate.
      * intros out Hout. injection Hout as <-. split.
        -- rewrite Forall_forall in Hz |- *. intros m Hm.
           rewrite FrameFacts.has_col_set, (Hz m Hm). reflexivity.
        -- rewrite FrameFacts.has_col_set, String.eqb_refl, orb_true_r. reflexivity.
    + destruct Hws as [-> [k [Hk Hnk]]]. split; [|split].
      * split; [intros _ | reflexivity]. right. exists k. split; [exact Hk|].
        intro Hin. apply (Hnk (k ++ "_z")%string). rewrite Hzc.
        apply IndexFacts.lookup_built. auto.
      * intros e He. injection He as <-. reflexivity.
      * intros out Hout. discriminate.
  - destruct Hzm as [-> [m [Hm Hna]]]. split; [|split].
    + split; [intros _ | reflexivity]. left. eauto.
    + intros e He. injection He as <-. reflexivity.
    + intros out Hout. discriminate.
Qed.

Lemma C7_isolation_index_errors_witness :
  Frame.compute_isolation_index [("pct_age65p", [Some 10; Some 20])]%string
    Frame.default_config = Raise KeyError.
Proof.
  assert (Hcl : forall m m', In m (Frame.metrics Frame.default_config) ->
              In m' (Frame.metrics Frame.default_config) ->
              m <> (m' ++ "_z")%string).
  { intros m m' Hm Hm'. simpl in Hm, Hm'.
    destruct Hm as [<- | [<- | [<- | []]]];
      destruct Hm' as [<- | [<- | [<- | []]]]; discriminate. }
  apply (proj2 (proj1 (C7_isolation_index_errors _ _ Hcl))).
  left. exists "pct_single65p"%string. split; [simpl; auto | reflexivity].
Defined.

(** C7 counterexample: with metrics ["a"] and weights {"a": 0.5, "b": 0.5}
    on a table holding both "a" and "b", every named metric is present
    and the function still raises [KeyError] ("b" has no z-column). *)
Lemma C7_weight_outside_metric_list_raises :
  let df := [("a", [Some 1; Some 2]); ("b", [Some 3; Some 5])]%string in
  Frame.has_col df "a" = true /\ Frame.has_col df "b" = true /\
  Frame.compute_isolation_index df
    (Frame.mkConfig ["a"%string] [("a", 0.5); ("b", 0.5)]%string "iso_index")
  = Raise KeyError.
Proof. repeat split; reflexivity. Qed.

(** C10 (confirmed).  For a DataFrame object [r] held by the caller:
    when a z-column is missing and the raw columns are present,
    [compute_pca_index] overwrites the caller's object with the table
    extended by the three freshly computed z-columns (whatever happens
    afterwards), and on return the result is a different object, a copy
    of the mutated table plus [iso_index_pca]; when all z-columns are
    present the caller's object is left unchanged.  No other object is
    touched. *)
Theorem C10_pca_writes_z_into_input (pca : list (list R) -> list R)
  (st : Frame.store) (r : nat) (Hr : (r < Frame.next st)%nat) :
  let df := Frame.heap st r in
  let st' := fst (Frame.compute_pca_index pca r st) in
  let res := snd (Frame.compute_pca_index pca r st) in
  (forallb (Frame.has_col df) Frame.needed = false ->
   forallb (Frame.has_col df) Frame.raw_needed = true ->
     (exists a b c,
        Frame.get_col df "pct_age65p" = Some a /\
        Frame.get_col df "pct_single65p" = Some b /\
        Frame.get_col df "poverty_rate" = Some c /\
        Frame.heap st' r =
          Frame.set_col (Frame.set_col (Frame.set_col df
            "pct_age65p_z" (Frame.zscore_pca_col a))
            "pct_single65p_z" (Frame.zscore_pca_col b))
            "poverty_rate_z" (Frame.zscore_pca_col c)) /\
     (forall r', res = Ok r' -> r' <> r /\
        exists v, Frame.heap st' r' = Frame.set_col (Frame.heap st' r) "iso_index_pca" v))
  /\
  (forallb (Frame.has_col df) Frame.needed = true ->
     Frame.heap st' r = df /\
     (forall r', res = Ok r' -> r' <> r /\
        exists v, Frame.heap st' r' = Frame.set_col df "iso_index_pca" v))
  /\
  (forall o, o <> r -> (o < Frame.next st)%nat -> Frame.heap st' o = Frame.heap st o).
Proof.
  intros df st' res.
  destruct (Frame.compute_pca_index pca r st) as [s' rs] eqn:Hrun.
  subst st' res. simpl.
  apply PcaFacts.compute_pca_index_split in Hrun as [st1 [res1 [Hfill Hrest]]].
  destruct (PcaFacts.fill_missing_z_spec r st st1 res1 Hfill)
    as [Hnext [Hother [Hall [Hmiss Hraw]]]].
  assert (Hr1 : (r < Frame.next st1)%nat) by (rewrite Hnext; exact Hr).
  destruct Hrest as [[-> Hpca] | [e [-> [-> ->]]]].
  - destruct (PcaFacts.pca_from_spec pca r st1 s' rs Hpca) as [Hkeep Hok].
    split; [|split].
    + intros Hn Hw. destruct (Hmiss Hn Hw) as [_ [a [b [c [Ha [Hb [Hc Hd]]]]]]].
      split.
      * exists a, b, c. repeat split; try assumption. rewrite Hkeep by exact Hr1.
        exact Hd.
      * intros r' Hr'. destruct (Hok r' Hr') as [-> [X [v [_ [_ Hv]]]]].
        split; [lia|]. exists v. rewrite Hv, (Hkeep r Hr1). reflexivity.
    + intros Hn. destruct (Hall Hn) as [Hd _]. split.
      * rewrite Hkeep by exact Hr1. exact Hd.
      * intros r' Hr'. destruct (Hok r' Hr') as [-> [X [v [_ [_ Hv]]]]].
        split; [lia|]. exists v. rewrite Hv, Hd. reflexivity.
    + intros o Ho Hlt. rewrite Hkeep by (rewrite Hnext; exact Hlt).
      exact (Hother o Ho).
  - split; [|split].
    + intros Hn Hw. destruct (Hmiss Hn Hw) as [Hok _]. discriminate.
    + intros Hn. destruct (Hall Hn) as [_ Hok]. discriminate.
    + intros o Ho _. exact (Hother o Ho).
Qed.

Lemma C10_pca_writes_z_into_input_witness :
  let raw := [("pct_age65p", [Some 20; Some 30]);
              ("pct_single65p", [Some 5; Some 9]);
              ("poverty_rate", [Some 10; Some 12])]%string in
  let st := Frame.mkStore (fun _ => raw) 1 in
  (0 < Frame.next st)%nat /\
  Frame.has_col raw "pct_age65p_z" = false /\
  Frame.has_col
    (Frame.heap (fst (Frame.compute_pca_index (map (fun row => hd 0 row)) 0 st)) 0)
    "pct_age65p_z" = true.
Proof.
  intros raw st. split; [simpl; lia|]. split; [reflexivity|].
  destruct (C10_pca_writes_z_into_input (map (fun row => hd 0 row)) st 0
              ltac:(simpl; lia)) as [H1 _].
  destruct (H1 eq_refl eq_refl) as [[a [b [c [_ [_ [_ Hd]]]]]] _].
  rewrite Hd, !FrameFacts.has_col_set. reflexivity.
Defined.

(** C6 (confirmed).  Whenever [compute_pca_index] returns a table [r']
    from an input table [r] whose [iso_index] column is NaN-free with
    nonzero variance, and the first principal component of the table it
    projects is well defined (non-constant scores), the [iso_index_pca]
    column of the result has a Pearson correlation with [iso_index] that
    exists and is non-negative, mean 0 and population standard
    deviation 1. *)
Theorem C6_pca_index_aligned_standardized (pca : list (list R) -> list R)
  (st : Frame.store) (r : nat) (Hr : (r < Frame.next st)%nat)
  (iso : list R)
  (Hiso : Frame.get_col (Frame.heap st r) "iso_index" = Some (map Some iso))
  (Hvar : ss iso <> 0)
  (Hpc : Frame.pc1_well_defined pca
           (Frame.heap (fst (Frame.compute_pca_index pca r st)) r))
  (r' : nat) (Hok : snd (Frame.compute_pca_index pca r st) = Ok r') :
  exists zs,
    Frame.get_col (Frame.heap (fst (Frame.compute_pca_index pca r st)) r')
      "iso_index_pca" = Some (map Some zs) /\
    mean zs = 0 /\ std 0 zs = Some 1 /\
    exists c, Frame.corrcoef (map Some zs) (map Some iso) = Some c /\ 0 <= c.
Proof.
  destruct (Frame.compute_pca_index pca r st) as [s' rs] eqn:Hrun.
  simpl in Hpc, Hok |- *. subst rs.
  apply PcaFacts.compute_pca_index_split in Hrun as [st1 [res1 [Hfill Hrest]]].
  destruct (PcaFacts.fill_missing_z_spec r st st1 res1 Hfill)
    as [Hnext [_ [Hall [Hmiss Hraw]]]].
  assert (Hr1 : (r < Frame.next st1)%nat) by (rewrite Hnext; exact Hr).
  destruct Hrest as [[-> Hpca] | [e [_ [_ He]]]]; [|discriminate].
  destruct (PcaFacts.pca_from_spec pca r st1 s' (Ok r') Hpca) as [Hkeep Hokf].
  destruct (Hokf r' eq_refl) as [_ [X [v [HX [Hal Hv]]]]].
  (* [iso_index] is not one of the columns filled in *)
  assert (Hiso1 : Frame.get_col (Frame.heap st1 r) "iso_index" = Some (map Some iso)).
  { destruct (forallb (Frame.has_col (Frame.heap st r)) Frame.needed) eqn:En.
    - destruct (Hall eq_refl) as [-> _]. exact Hiso.
    - destruct (forallb (Frame.has_col (Frame.heap st r)) Frame.raw_needed) eqn:Ew.
      + destruct (Hmiss eq_refl eq_refl) as [_ [a [b [c [_ [_ [_ ->]]]]]]].
        rewrite !FrameFacts.get_col_set_other by discriminate. exact Hiso.
      + destruct (Hraw eq_refl eq_refl) as [_ Hbad]. discriminate. }
  rewrite (Hkeep r Hr1) in Hpc. unfold Frame.pc1_well_defined in Hpc.
  rewrite HX in Hpc. destruct Hpc as [sd [Hsd Hsd0]].
  rewrite (AlignFacts.standardize_scores_ok _ sd Hsd Hsd0) in Hal.
  destruct (StdFacts.standardize_std 0 (pca X) sd Hsd Hsd0) as [Hm Hs].
  set (zs0 := map (fun x => (x - mean (pca X)) / sd) (pca X)) in *.
  destruct (AlignFacts.align_sign_spec _ zs0 iso v Hiso1 Hvar
              (AlignFacts.ss_of_std1 zs0 Hs) Hal)
    as [zs [-> [Hzs [c [Hc Hc0]]]]].
  exists zs. split; [|split; [|split]].
  - rewrite Hv. apply FrameFacts.get_col_set_same.
  - destruct Hzs as [-> | ->]; [exact Hm|]. rewrite AlignFacts.mean_opp, Hm. ring.
  - destruct Hzs as [-> | ->]; [exact Hs|]. rewrite AlignFacts.std_opp. exact Hs.
  - exists c. split; assumption.
Qed.

Lemma C6_pca_index_aligned_standardized_witness :
  snd (Frame.compute_pca_index Samples.first_coordinate 0 Samples.pca_sample_store)
    = Ok 1%nat /\
  exists zs,
    Frame.get_col (Frame.heap (fst (Frame.compute_pca_index Samples.first_coordinate
                                      0 Samples.pca_sample_store)) 1)
      "iso_index_pca" = Some (map Some zs) /\
    mean zs = 0 /\ std 0 zs = Some 1 /\
    exists c, Frame.corrcoef (map Some zs) (map Some [0; 2]) = Some c /\ 0 <= c.
Proof.
  assert (Hok : snd (Frame.compute_pca_index Samples.first_coordinate 0
                       Samples.pca_sample_store) = Ok 1%nat)
    by (rewrite SampleFacts.run02; reflexivity).
  split; [exact Hok|].
  apply (C6_pca_index_aligned_standardized Samples.first_coordinate
           Samples.pca_sample_store 0 ltac:(simpl; lia) [0; 2] eq_refl).
  - rewrite SampleFacts.ss02. lra.
  - rewrite SampleFacts.run02. unfold Frame.pc1_well_defined. simpl.
    exists 1. split; [exact SampleFacts.std02 | lra].
  - exact Hok.
Defined.

End Claims.

(** ** Positive affine changes of a column *)
Module AffineFacts.

Section Affine.
Variables a b : R.
Hypothesis Ha : 0 < a.

Lemma sumR_aff (l : list R) :
  sumR (map (fun x => a * x + b) l) = a * sumR l + b * nR l.
Proof.
  unfold nR. induction l as [|x t IH]; simpl; [ring|].
  rewrite IH. destruct (length t); simpl; ring.
Qed.

Lemma nR_map (f : R -> R) (l : list R) : nR (map f l) = nR l.
Proof. unfold nR. now rewrite length_map. Qed.

Lemma mean_aff (l : list R) :
  l <> [] -> mean (map (fun x => a * x + b) l) = a * mean l + b.
Proof.
  intro Hne. pose proof (SumFacts.nR_pos l Hne) as Hn.
  unfold mean. rewrite sumR_aff, nR_map. field. lra.
Qed.

Lemma ss_aff (l : list R) : ss (map (fun x => a * x + b) l) = a ^ 2 * ss l.
Proof.
  destruct l as [|x0 t]; [unfold ss; simpl; ring|].
  unfold ss at 1. rewrite mean_aff by discriminate. rewrite map_map.
  unfold ss. rewrite <- SumFacts.sumR_scale. f_equal. apply map_ext. intro; ring.
Qed.

Lemma std_aff (ddof : nat) (l : list R) :
  std ddof (map (fun x => a * x + b) l) = option_map (fun s => a * s) (std ddof l).
Proof.
  unfold std. rewrite length_map.
  destruct (Nat.leb (length l) ddof) eqn:E; [reflexivity|]. simpl. f_equal.
  apply Nat.leb_gt in E.
  assert (Hk : 0 < INR (length l - ddof)) by (apply lt_0_INR; lia).
  rewrite ss_aff.
  replace (a ^ 2 * ss l / INR (length l - ddof))
    with (a ^ 2 * (ss l / INR (length l - ddof))) by (unfold Rdiv; ring).
  rewrite sqrt_mult_alt by (apply pow2_ge_0).
  rewrite sqrt_pow2 by lra. reflexivity.
Qed.

Lemma standardized_aff (m s x : R) :
  s <> 0 -> (a * x + b - (a * m + b)) / (a * s) = (x - m) / s.
Proof. intro Hs. field. split; lra. Qed.

Lemma Rmin_aff (x y : R) : Rmin (a * x + b) (a * y + b) = a * Rmin x y + b.
Proof.
  unfold Rmin. destruct (Rle_dec x y), (Rle_dec (a * x + b) (a * y + b)); nra.
Qed.

Lemma Rmax_aff (x y : R) : Rmax (a * x + b) (a * y + b) = a * Rmax x y + b.
Proof.
  unfold Rmax. destruct (Rle_dec x y), (Rle_dec (a * x + b) (a * y + b)); nra.
Qed.

Lemma fold_min_aff (t : list R) (x : R) :
  fold_left Rmin (map (fun x => a * x + b) t) (a * x + b) = a * fold_left Rmin t x + b.
Proof.
  revert x. induction t as [|y t IH]; intro x; simpl; [reflexivity|].
  rewrite Rmin_aff. apply IH.
Qed.

Lemma fold_max_aff (t : list R) (x : R) :
  fold_left Rmax (map (fun x => a * x + b) t) (a * x + b) = a * fold_left Rmax t x + b.
Proof.
  revert x. induction t as [|y t IH]; intro x; simpl; [reflexivity|].
  rewrite Rmax_aff. apply IH.
Qed.

End Affine.

Lemma fold_min_le (t : list R) (x : R) : fold_left Rmin t x <= x.
Proof.
  revert x. induction t as [|y t IH]; intro x; simpl; [lra|].
  eapply Rle_trans; [apply IH | apply Rmin_l].
Qed.

Lemma fold_max_ge (t : list R) (x : R) : x <= fold_left Rmax t x.
Proof.
  revert x. induction t as [|y t IH]; intro x; simpl; [lra|].
  eapply Rle_trans; [apply Rmax_l | apply IH].
Qed.

Lemma series_min_le_max (s : list R) :
  Normalize.series_min s <= Normalize.series_max s.
Proof.
  destruct s as [|x t]; simpl; [lra|].
  eapply Rle_trans; [apply fold_min_le | apply fold_max_ge].
Qed.

Lemma minmax_shape (x0 : R) (t : list R) :
  Normalize.minmax_0_100 (x0 :: t) =
  map (fun x => if Req_EM_T (fold_left Rmax t x0 - fold_left Rmin t x0) 0 then 50
                else 100 * (x - fold_left Rmin t x0)
                     / (fold_left Rmax t x0 - fold_left Rmin t x0)) (x0 :: t).
Proof.
  unfold Normalize.minmax_0_100, Normalize.series_min, Normalize.series_max.
  destruct (Req_EM_T _ _); reflexivity.
Qed.

End AffineFacts.

(** ** The sample-std standardisers *)
Module SampleStdFacts.

Lemma sqrt_zero_iff (x : R) : 0 <= x -> (sqrt x = 0 <-> x = 0).
Proof.
  intro Hx. split; [intro H; now apply sqrt_eq_0 | intros ->; apply sqrt_0].
Qed.

(** With pandas' sample std, a column of at least two rows has a zero
    std exactly when its squared deviations sum to zero. *)
Lemma std1_zero_iff (l : list R) (sd : R) :
  std 1 l = Some sd -> (sd = 0 <-> ss l = 0).
Proof.
  unfold std. destruct (Nat.leb (length l) 1) eqn:E; [discriminate|].
  intro H. injection H as <-. apply Nat.leb_gt in E.
  assert (Hk : 0 < INR (length l - 1)) by (apply lt_0_INR; lia).
  pose proof (SumFacts.ss_nonneg l) as Hs.
  rewrite sqrt_zero_iff.
  - split; intro H.
    + apply (Rmult_eq_compat_r (INR (length l - 1))) in H.
      unfold Rdiv in H. rewrite Rmult_assoc, Rinv_l, Rmult_0_l in H by lra. lra.
    + rewrite H. unfold Rdiv. ring.
  - apply Rmult_le_pos; [exact Hs | left; now apply Rinv_0_lt_compat].
Qed.

End SampleStdFacts.

(** ** Further facts on the isolation index builder *)
Module IndexExtraFacts.
Import Frame FrameFacts Transforms.
Local Open Scope string_scope.

Lemma get_col_set (df : frame) (c m : string) (v : column) :
  get_col (set_col df c v) m = if String.eqb c m then Some v else get_col df m.
Proof.
  destruct (String.eqb c m) eqn:E.
  - apply String.eqb_eq in E. subst. apply get_col_set_same.
  - apply String.eqb_neq in E. now apply get_col_set_other.
Qed.

Lemma sum_mean0 (l : list R) : mean l = 0 -> l <> [] -> sumR l = 0.
Proof.
  intros H Hne. pose proof (SumFacts.nR_pos l Hne) as Hn. unfold mean in H.
  apply (Rmult_eq_compat_r (nR l)) in H. unfold Rdiv in H.
  rewrite Rmult_assoc, Rinv_l, Rmult_1_r, Rmult_0_l in H by lra. exact H.
Qed.

Lemma mean_sum0 (l : list R) : sumR l = 0 -> mean l = 0.
Proof. intro H. unfold mean. rewrite H. unfold Rdiv. ring. Qed.

Lemma std_some_nonempty (ddof : nat) (l : list R) (s : R) :
  std ddof l = Some s -> l <> [].
Proof. intros E ->. unfold std in E. simpl in E. discriminate. Qed.

Lemma zscore_col_complete (xs : list R) :
  exists ys, zscore_col (map Some xs) = map Some ys /\
             length ys = length xs /\ sumR ys = 0.
Proof.
  unfold zscore_col. rewrite ColumnFacts.dropna_some.
  destruct (std 0 xs) as [s|] eqn:E.
  - destruct (Req_EM_T s 0) as [Z|NZ].
    + exists (map (fun _ => 0) xs). rewrite !map_map.
      split; [reflexivity|]. split; [apply length_map | apply SumFacts.sumR_const0].
    + exists (map (fun x => (x - mean xs) / s) xs). rewrite !map_map.
      split; [reflexivity|]. split; [apply length_map|].
      apply sum_mean0; [exact (proj1 (StdFacts.standardize_std 0 xs s E NZ))|].
      intro H. apply map_eq_nil in H. exact (std_some_nonempty 0 xs s E H).
  - exists (map (fun _ => 0) xs). rewrite !map_map.
    split; [reflexivity|]. split; [apply length_map | apply SumFacts.sumR_const0].
Qed.

Lemma sumR_scale0 (w : R) (l : list R) :
  sumR (map (fun x => 0 + w * x) l) = w * sumR l.
Proof. induction l as [|x t IH]; simpl; [ring | rewrite IH; ring]. Qed.

Lemma sumR_comb (w : R) (s t : list R) :
  length s = length t ->
  sumR (map (fun p => fst p + w * snd p) (combine s t)) = sumR s + w * sumR t.
Proof.
  revert t. induction s as [|x s IH]; intros [|y t] Hl; simpl in *; try lia; [ring|].
  rewrite IH by lia. ring.
Qed.

Lemma combine_map_some (w : R) (s t : list R) :
  map (fun p => fadd (fst p) (fmul w (snd p))) (combine (map Some s) (map Some t)) =
  map Some (map (fun p => fst p + w * snd p) (combine s t)).
Proof.
  revert t. induction s as [|x s IH]; intros [|y t]; simpl; try reflexivity.
  now rewrite IH.
Qed.

Lemma repeat_some0 (k : nat) : repeat (Some 0) k = map Some (repeat 0 k).
Proof. induction k as [|k IH]; simpl; [reflexivity | now rewrite IH]. Qed.

Lemma sumR_repeat0 (k : nat) : sumR (repeat 0 k) = 0.
Proof. induction k as [|k IH]; simpl; [reflexivity | rewrite IH; ring]. Qed.

Section Complete.
Variable n : nat.

Lemma zm_complete (ms : list string) (out : frame) (zc : list (string * string))
    (out' : frame) (zc' : list (string * string)) :
  (forall c v, get_col out c = Some v -> exists xs, v = map Some xs /\ length xs = n) ->
  (forall k z, lookup zc k = Ok z ->
     exists xs, get_col out z = Some (map Some xs) /\ length xs = n /\ sumR xs = 0) ->
  zscore_metrics ms out zc = Ok (out', zc') ->
  (forall c v, get_col out' c = Some v -> exists xs, v = map Some xs /\ length xs = n) /\
  (forall k z, lookup zc' k = Ok z ->
     exists xs, get_col out' z = Some (map Some xs) /\ length xs = n /\ sumR xs = 0).
Proof.
  revert out zc. induction ms as [|m rest IH]; intros out zc Hc Hz H; simpl in H.
  - injection H as <- <-. auto.
  - destruct (negb (has_col out m)); [discriminate|].
    unfold column_of in H. destruct (get_col out m) as [v|] eqn:Ev; [|discriminate].
    destruct (Hc m v Ev) as [xs [-> Hl]].
    destruct (zscore_col_complete xs) as [ys [Hy [Hyl Hys]]]. rewrite Hy in H.
    apply (IH _ _) in H; [exact H | |].
    + intros c w Hw. rewrite get_col_set in Hw.
      destruct (String.eqb (m ++ "_z") c).
      * injection Hw as <-. exists ys. split; [reflexivity | lia].
      * eauto.
    + intros k z Hk. simpl in Hk. rewrite get_col_set.
      destruct (String.eqb (m ++ "_z") z) eqn:Ez.
      * exists ys. split; [reflexivity | split; [lia | exact Hys]].
      * destruct (String.eqb m k).
        -- injection Hk as <-. rewrite String.eqb_refl in Ez. discriminate.
        -- eauto.
Qed.

Lemma ws_complete (ws : list (string * R)) (out : frame) (zc : list (string * string))
    (idx idx' : acc) :
  (forall k z, lookup zc k = Ok z ->
     exists xs, get_col out z = Some (map Some xs) /\ length xs = n /\ sumR xs = 0) ->
  (idx = Scalar 0 \/ exists s, idx = Series (map Some s) /\ length s = n /\ sumR s = 0) ->
  weighted_sum ws out zc idx = Ok idx' ->
  idx' = Scalar 0 \/ exists s, idx' = Series (map Some s) /\ length s = n /\ sumR s = 0.
Proof.
  intros Hz. revert idx. induction ws as [|[k w] rest IH]; intros idx Hidx H; simpl in H.
  - injection H as <-. exact Hidx.
  - destruct (lookup zc k) as [z|e] eqn:Ek; [|discriminate].
    destruct (Hz k z Ek) as [xs [Hx [Hxl Hxs]]].
    unfold column_of in H. rewrite Hx in H.
    apply (IH _) in H; [exact H|]. right.
    destruct Hidx as [-> | [s [-> [Hsl Hss]]]]; simpl.
    + exists (map (fun x => 0 + w * x) xs). split.
      * f_equal. rewrite !map_map. reflexivity.
      * split; [rewrite length_map; exact Hxl|]. rewrite sumR_scale0, Hxs. ring.
    + exists (map (fun p => fst p + w * snd p) (combine s xs)). split.
      * f_equal. apply combine_map_some.
      * split; [rewrite length_map, length_combine; lia|].
        rewrite sumR_comb by lia. rewrite Hss, Hxs. ring.
Qed.

End Complete.

Lemma zm_keep (ms : list string) (out : frame) (zc : list (string * string))
    (out' : frame) (zc' : list (string * string)) :
  zscore_metrics ms out zc = Ok (out', zc') ->
  forall c, (forall m, In m ms -> c <> m ++ "_z") -> get_col out' c = get_col out c.
Proof.
  revert out zc. induction ms as [|m rest IH]; intros out zc H c Hc; simpl in H.
  - now injection H as <- <-.
  - destruct (negb (has_col out m)); [discriminate|].
    destruct (column_of out m) as [v|e]; [|discriminate].
    rewrite (IH _ _ H c) by (intros m' Hm'; apply Hc; right; exact Hm').
    apply get_col_set_other. intro E. apply (Hc m); [left; reflexivity | symmetry; exact E].
Qed.

(** *** Tables related by a transformation of one column *)

Lemma dropna_aff (a b : R) (v : column) :
  Standardize.dropna (map (affine_cell a b) v) =
  map (fun x => a * x + b) (Standardize.dropna v).
Proof.
  induction v as [|[x|] t IH]; simpl; [reflexivity | now rewrite IH | exact IH].
Qed.

Lemma zscore_col_aff (a b : R) (v : column) :
  0 < a -> zscore_col (map (affine_cell a b) v) = zscore_col v.
Proof.
  intro Ha. unfold zscore_col. rewrite dropna_aff, AffineFacts.std_aff by exact Ha.
  destruct (std 0 (Standardize.dropna v)) as [s|] eqn:E; cbn [option_map].
  - destruct (Req_EM_T (a * s) 0) as [Z|NZ]; destruct (Req_EM_T s 0) as [Z'|NZ'].
    + rewrite map_map. reflexivity.
    + exfalso. apply Rmult_integral in Z. destruct Z; lra.
    + exfalso. apply NZ. rewrite Z'. ring.
    + rewrite AffineFacts.mean_aff by (exact Ha || exact (std_some_nonempty 0 _ s E)).
      rewrite map_map. apply map_ext. intros [x|]; simpl; [|reflexivity].
      f_equal. now apply AffineFacts.standardized_aff.
  - rewrite map_map. reflexivity.
Qed.

Lemma map_col_rel (m : string) (f : column -> column) (df : frame) :
  frame_rel m f df (map_col m f df).
Proof.
  induction df as [|[k v] t IH]; simpl; constructor; [|exact IH].
  simpl. destruct (String.eqb k m) eqn:E; simpl.
  - apply String.eqb_eq in E. auto.
  - auto.
Qed.

Section Rel.
Variable m : string.
Variable f : column -> column.
Hypothesis Hlen : forall v, length (f v) = length v.
Hypothesis Hz : forall v, zscore_col (f v) = zscore_col v.

Lemma rel_get (out out' : frame) (c : string) :
  frame_rel m f out out' ->
  get_col out' c = get_col out c \/ (c = m /\ get_col out' c = option_map f (get_col out c)).
Proof.
  intro H. induction H as [|[k v] [k' v'] t t' [Hk Hv] _ IH]; simpl in *; [auto|].
  subst k'. destruct (String.eqb k c) eqn:E.
  - apply String.eqb_eq in E. subst c. destruct Hv as [-> | [-> ->]]; auto.
  - exact IH.
Qed.

Lemma rel_has (out out' : frame) (c : string) :
  frame_rel m f out out' -> has_col out' c = has_col out c.
Proof.
  intro H. unfold has_col.
  induction H as [|[k v] [k' v'] t t' [Hk _] _ IH]; simpl in *; [reflexivity|].
  now rewrite Hk, IH.
Qed.

Lemma rel_nrows (out out' : frame) :
  frame_rel m f out out' -> nrows out' = nrows out.
Proof.
  intro H. destruct H as [|[k v] [k' v'] t t' [Hk Hv] _]; simpl in *; [reflexivity|].
  destruct Hv as [-> | [_ ->]]; [reflexivity | apply Hlen].
Qed.

Lemma rel_set (out out' : frame) (c : string) (w : column) :
  frame_rel m f out out' -> frame_rel m f (set_col out c w) (set_col out' c w).
Proof.
  intro H. induction H as [|[k v] [k' v'] t t' [Hk Hv] Ht IH]; simpl in *.
  - repeat constructor.
  - subst k'. destruct (String.eqb k c).
    + constructor; [simpl; auto | exact Ht].
    + constructor; [simpl; auto | exact IH].
Qed.

Lemma rel_column_z (out out' : frame) (c : string) :
  frame_rel m f out out' ->
  match column_of out c, column_of out' c with
  | Ok v, Ok v' => zscore_col v' = zscore_col v
  | Raise e, Raise e' => e' = e
  | _, _ => False
  end.
Proof.
  intro H. unfold column_of.
  destruct (rel_get out out' c H) as [E | [_ E]]; rewrite E;
    destruct (get_col out c); simpl; auto.
Qed.

Lemma zm_rel (ms : list string) (out out' : frame) (zc : list (string * string)) :
  frame_rel m f out out' ->
  (forall k z, lookup zc k = Ok z -> get_col out' z = get_col out z) ->
  match zscore_metrics ms out zc, zscore_metrics ms out' zc with
  | Ok (o1, z1), Ok (o2, z2) =>
      z2 = z1 /\ frame_rel m f o1 o2 /\
      (forall k z, lookup z1 k = Ok z -> get_col o2 z = get_col o1 z)
  | Raise e1, Raise e2 => e2 = e1
  | _, _ => False
  end.
Proof.
  revert out out' zc. induction ms as [|m0 rest IH]; intros out out' zc Hr Hzc; simpl.
  - auto.
  - rewrite (rel_has out out' m0 Hr).
    destruct (has_col out m0); simpl; [|reflexivity].
    pose proof (rel_column_z out out' m0 Hr) as Hc.
    destruct (column_of out m0) as [v|e]; destruct (column_of out' m0) as [v'|e'];
      try contradiction; [|exact Hc].
    rewrite Hc. apply IH.
    + now apply rel_set.
    + intros k z Hk. simpl in Hk. rewrite !get_col_set.
      destruct (String.eqb (m0 ++ "_z") z) eqn:Ez; [reflexivity|].
      destruct (String.eqb m0 k).
      * injection Hk as <-. rewrite String.eqb_refl in Ez. discriminate.
      * exact (Hzc k z Hk).
Qed.

Lemma ws_rel (ws : list (string * R)) (out out' : frame) (zc : list (string * string))
    (idx : acc) :
  (forall k z, lookup zc k = Ok z -> get_col out' z = get_col out z) ->
  weighted_sum ws out' zc idx = weighted_sum ws out zc idx.
Proof.
  intro Hzc. revert idx. induction ws as [|[k w] rest IH]; intro idx; simpl; [reflexivity|].
  destruct (lookup zc k) as [z|e] eqn:Ek; [|reflexivity].
  unfold column_of. rewrite (Hzc k z Ek).
  destruct (get_col out z); [apply IH | reflexivity].
Qed.

End Rel.

End IndexExtraFacts.

(** ** Facts on the command-line scripts *)
Module ScriptFacts.
Import Frame FrameFacts Scripts.
Local Open Scope string_scope.

Lemma missing_nil_iff (df : frame) (req : list string) :
  missing df req = [] <-> forall c, In c req -> has_col df c = true.
Proof.
  unfold missing. induction req as [|c0 t IH]; simpl.
  - split; [intros _ c []|reflexivity].
  - destruct (has_col df c0) eqn:E; simpl.
    + rewrite IH. split.
      * intros H c [<-|Hc]; [exact E | now apply H].
      * intros H c Hc. apply H. now right.
    + split; [discriminate|]. intro H. rewrite (H c0 (or_introl eq_refl)) in E. discriminate.
Qed.

Lemma has_col_some (df : frame) (c : string) :
  has_col df c = true -> exists v, get_col df c = Some v.
Proof. apply get_col_has. Qed.

Lemma col_scale_some (w : R) (xs : list R) :
  col_scale w (map Some xs) = map Some (map (fun x => w * x) xs).
Proof. unfold col_scale. rewrite !map_map. reflexivity. Qed.

Lemma col_neg_some (xs : list R) :
  col_neg (map Some xs) = map Some (map Ropp xs).
Proof. unfold col_neg. rewrite !map_map. reflexivity. Qed.

Lemma col_add_some (xs ys : list R) :
  col_add (map Some xs) (map Some ys) =
  map Some (map (fun p => fst p + snd p) (combine xs ys)).
Proof.
  unfold col_add. revert ys.
  induction xs as [|x xs IH]; intros [|y ys]; simpl; try reflexivity.
  f_equal. apply IH.
Qed.

Lemma sumR_add (xs ys : list R) :
  length xs = length ys ->
  sumR (map (fun p => fst p + snd p) (combine xs ys)) = sumR xs + sumR ys.
Proof.
  revert ys. induction xs as [|x xs IH]; intros [|y ys] Hl; simpl in *; try lia; [ring|].
  rewrite IH by lia. ring.
Qed.

Lemma sumR_mul (w : R) (xs : list R) : sumR (map (fun x => w * x) xs) = w * sumR xs.
Proof. induction xs as [|x xs IH]; simpl; [ring | rewrite IH; ring]. Qed.

Lemma nth_col_add (u v : column) (i : nat) :
  (i < length u)%nat -> (i < length v)%nat ->
  nth i (col_add u v) None = fadd (nth i u None) (nth i v None).
Proof.
  unfold col_add. revert v i.
  induction u as [|x u IH]; intros [|y v] [|i] Hu Hv; simpl in *; try lia; [reflexivity|].
  apply IH; lia.
Qed.

Lemma nth_col_scale (w : R) (u : column) (i : nat) :
  nth i (col_scale w u) None = fmul w (nth i u None).
Proof. unfold col_scale. change None with (fmul w None) at 1. apply map_nth. Qed.

Lemma nth_col_neg (u : column) (i : nat) :
  nth i (col_neg u) None = option_map Ropp (nth i u None).
Proof. unfold col_neg. change None with (option_map Ropp None) at 1. apply map_nth. Qed.

Lemma length_col_add (u v : column) : length (col_add u v) = Nat.min (length u) (length v).
Proof. unfold col_add. rewrite length_map. apply length_combine. Qed.

Lemma length_col_scale (w : R) (u : column) : length (col_scale w u) = length u.
Proof. apply length_map. Qed.

Lemma length_col_neg (u : column) : length (col_neg u) = length u.
Proof. apply length_map. Qed.

Lemma fadd_none (x y : option R) : fadd x y = None <-> x = None \/ y = None.
Proof. destruct x, y; simpl; intuition discriminate. Qed.

Lemma fmul_none (w : R) (x : option R) : fmul w x = None <-> x = None.
Proof. destruct x; simpl; intuition discriminate. Qed.

Lemma option_map_none {A B : Type} (f : A -> B) (x : option A) :
  option_map f x = None <-> x = None.
Proof. destruct x; simpl; intuition discriminate. Qed.

(** The table [build_designed_index] returns when no column is missing. *)
Lemma build_designed_index_ok (df : frame) (a s p t : column) :
  missing df required_z = [] ->
  get_col df "pct_age65p_z" = Some a -> get_col df "pct_single65p_z" = Some s ->
  get_col df "poverty_rate_z" = Some p -> get_col df "transit_z" = Some t ->
  build_designed_index df =
  Ok (set_col (set_col df "neg_transit_z" (col_neg t)) "iri_designed"
        (col_add (col_add (col_add (col_scale 0.25 a) (col_scale 0.25 s))
                          (col_scale 0.20 p))
                 (col_scale 0.15 (col_neg t)))).
Proof.
  intros Hm Ha Hs Hp Ht. unfold build_designed_index. rewrite Hm.
  unfold column_of. rewrite Ht. cbn [rbind].
  rewrite !IndexExtraFacts.get_col_set. cbn [String.eqb Ascii.eqb Bool.eqb andb].
  rewrite Ha, Hs, Hp. reflexivity.
Qed.

(** The table [build_final_index] returns when no column is missing: its
    [iso_final] column. *)
Lemma build_final_index_ok (df : frame) (a s p t : column) :
  missing df required_z = [] ->
  get_col df "pct_age65p_z" = Some a -> get_col df "pct_single65p_z" = Some s ->
  get_col df "poverty_rate_z" = Some p -> get_col df "transit_z" = Some t ->
  exists out, build_final_index df = Ok out /\
  get_col out "iso_final" =
  Some (col_add
          (col_add (col_scale 0.50 (safe_z_col (col_add (col_scale 0.5 a) (col_scale 0.5 s))))
                   (col_scale 0.375 (safe_z_col p)))
          (col_scale 0.125 (safe_z_col (col_neg t)))).
Proof.
  intros Hm Ha Hs Hp Ht. unfold build_final_index. rewrite Hm.
  unfold column_of. rewrite Ha, Hs. cbn [rbind].
  rewrite !IndexExtraFacts.get_col_set. cbn [String.eqb Ascii.eqb Bool.eqb andb].
  rewrite Hp. cbn [rbind].
  rewrite !IndexExtraFacts.get_col_set. cbn [String.eqb Ascii.eqb Bool.eqb andb].
  rewrite Ht. cbn [rbind safe_z_loop].
  unfold column_of.
  repeat first [ rewrite IndexExtraFacts.get_col_set
               | progress cbn [String.eqb Ascii.eqb Bool.eqb andb append rbind] ].
  eexists. split; [reflexivity|]. apply get_col_set_same.
Qed.

Lemma sumR_times0 (xs : list R) : sumR (map (fun v => v * 0) xs) = 0.
Proof. induction xs as [|x xs IH]; simpl; [reflexivity | rewrite IH; ring]. Qed.

Lemma safe_z_col_complete (xs : list R) :
  exists ys, safe_z_col (map Some xs) = map Some ys /\
             length ys = length xs /\ sumR ys = 0.
Proof.
  unfold safe_z_col. rewrite ColumnFacts.dropna_some.
  destruct (std 0 xs) as [sd|] eqn:E.
  - destruct (Req_EM_T sd 0) as [Z|NZ].
    + exists (map (fun v => v * 0) xs). rewrite !map_map.
      split; [reflexivity|]. split; [apply length_map | apply sumR_times0].
    + exists (map (fun v => (v - mean xs) / sd) xs). rewrite !map_map.
      split; [reflexivity|]. split; [apply length_map|].
      apply IndexExtraFacts.sum_mean0;
        [exact (proj1 (StdFacts.standardize_std 0 xs sd E NZ))|].
      intro H. apply map_eq_nil in H. exact (IndexExtraFacts.std_some_nonempty 0 xs sd E H).
  - exists (map (fun v => v * 0) xs). rewrite !map_map.
    split; [reflexivity|]. split; [apply length_map | apply sumR_times0].
Qed.

Lemma safe_z_col_aff (a b : R) (v : column) :
  0 < a -> safe_z_col (map (Transforms.affine_cell a b) v) = safe_z_col v.
Proof.
  intro Ha. unfold safe_z_col. rewrite IndexExtraFacts.dropna_aff, AffineFacts.std_aff by exact Ha.
  assert (H0 : map (option_map (fun v0 => v0 * 0)) (map (Transforms.affine_cell a b) v) =
               map (option_map (fun v0 => v0 * 0)) v).
  { rewrite map_map. apply map_ext. intros [x|]; simpl; [f_equal; ring | reflexivity]. }
  destruct (std 0 (Standardize.dropna v)) as [s|] eqn:E; cbn [option_map].
  - destruct (Req_EM_T (a * s) 0) as [Z|NZ]; destruct (Req_EM_T s 0) as [Z'|NZ'].
    + exact H0.
    + exfalso. apply Rmult_integral in Z. destruct Z; lra.
    + exfalso. apply NZ. rewrite Z'. ring.
    + rewrite AffineFacts.mean_aff
        by (exact Ha || exact (IndexExtraFacts.std_some_nonempty 0 _ s E)).
      rewrite map_map. apply map_ext. intros [x|]; simpl; [|reflexivity].
      f_equal. now apply AffineFacts.standardized_aff.
  - exact H0.
Qed.

Lemma col_neg_aff (a b : R) (v : column) :
  col_neg (map (Transforms.affine_cell a b) v) =
  map (Transforms.affine_cell a (- b)) (col_neg v).
Proof.
  unfold col_neg. rewrite !map_map. apply map_ext.
  intros [x|]; simpl; [f_equal; ring | reflexivity].
Qed.

Lemma get_col_map_col (m : string) (f : column -> column) (df : frame) (c : string) :
  get_col (Transforms.map_col m f df) c =
  if String.eqb c m then option_map f (get_col df c) else get_col df c.
Proof.
  induction df as [|[k v] t IH]; simpl.
  - destruct (String.eqb c m); reflexivity.
  - destruct (String.eqb k m) eqn:Ekm; simpl; destruct (String.eqb k c) eqn:Ekc.
    + apply String.eqb_eq in Ekm, Ekc. subst. rewrite String.eqb_refl. reflexivity.
    + exact IH.
    + apply String.eqb_eq in Ekc. subst. rewrite Ekm. reflexivity.
    + exact IH.
Qed.

Lemma has_col_map_col (m : string) (f : column -> column) (df : frame) (c : string) :
  has_col (Transforms.map_col m f df) c = has_col df c.
Proof.
  unfold has_col, Transforms.map_col.
  induction df as [|[k v] t IH]; simpl; [reflexivity|].
  destruct (String.eqb k m); simpl; now rewrite IH.
Qed.

Lemma missing_map_col (m : string) (f : column -> column) (df : frame) (req : list string) :
  missing (Transforms.map_col m f df) req = missing df req.
Proof.
  unfold missing. induction req as [|c t IH]; simpl; [reflexivity|].
  now rewrite has_col_map_col, IH.
Qed.

Lemma missing_cons_raise (df : frame) (req : list string) (c : string) (t : list string) :
  missing df req = c :: t -> In c req /\ has_col df c = false.
Proof.
  intro H. assert (Hin : In c (missing df req)) by (rewrite H; left; reflexivity).
  unfold missing in Hin. apply filter_In in Hin. destruct Hin as [Hin Hn].
  split; [exact Hin | now apply negb_true_iff].
Qed.

(** The four required columns, read off a table that has them all. *)
Lemma required_cols (df : frame) :
  missing df required_z = [] ->
  exists a s p t, get_col df "pct_age65p_z" = Some a /\
    get_col df "pct_single65p_z" = Some s /\
    get_col df "poverty_rate_z" = Some p /\ get_col df "transit_z" = Some t.
Proof.
  intro Hm. rewrite missing_nil_iff in Hm.
  destruct (has_col_some df _ (Hm "pct_age65p_z" ltac:(simpl; tauto))) as [a Ha].
  destruct (has_col_some df _ (Hm "pct_single65p_z" ltac:(simpl; tauto))) as [s Hs].
  destruct (has_col_some df _ (Hm "poverty_rate_z" ltac:(simpl; tauto))) as [p Hp].
  destruct (has_col_some df _ (Hm "transit_z" ltac:(simpl; tauto))) as [t Ht].
  now exists a, s, p, t.
Qed.

Lemma fold_min_le_in (t : list R) (x y : R) : In y (x :: t) -> fold_left Rmin t x <= y.
Proof.
  revert x. induction t as [|z t IH]; intros x Hy; simpl in *.
  - destruct Hy as [<-|[]]. lra.
  - destruct Hy as [<-|[<-|Hy]].
    + eapply Rle_trans; [apply AffineFacts.fold_min_le | apply Rmin_l].
    + eapply Rle_trans; [apply AffineFacts.fold_min_le | apply Rmin_r].
    + apply IH. now right.
Qed.

Lemma fold_max_ge_in (t : list R) (x y : R) : In y (x :: t) -> y <= fold_left Rmax t x.
Proof.
  revert x. induction t as [|z t IH]; intros x Hy; simpl in *.
  - destruct Hy as [<-|[]]. lra.
  - destruct Hy as [<-|[<-|Hy]].
    + eapply Rle_trans; [apply Rmax_l | apply AffineFacts.fold_max_ge].
    + eapply Rle_trans; [apply Rmax_r | apply AffineFacts.fold_max_ge].
    + apply IH. now right.
Qed.

Lemma fold_min_in (t : list R) (x : R) : In (fold_left Rmin t x) (x :: t).
Proof.
  revert x. induction t as [|z t IH]; intro x; simpl; [now left|].
  destruct (IH (Rmin x z)) as [E|E]; [|right; right; exact E].
  rewrite <- E. unfold Rmin. destruct (Rle_dec x z); [left | right; left]; reflexivity.
Qed.

Lemma fold_max_in (t : list R) (x : R) : In (fold_left Rmax t x) (x :: t).
Proof.
  revert x. induction t as [|z t IH]; intro x; simpl; [now left|].
  destruct (IH (Rmax x z)) as [E|E]; [|right; right; exact E].
  rewrite <- E. unfold Rmax. destruct (Rle_dec x z); [right; left | left]; reflexivity.
Qed.

Lemma In_dropna (x : R) (v : column) : In x (Standardize.dropna v) <-> In (Some x) v.
Proof.
  induction v as [|[y|] t IH]; simpl; [tauto| |].
  - rewrite IH. split; intros [H|H]; auto; [left; now subst | left; now injection H].
  - rewrite IH. split; [auto | intros [H|H]; [discriminate | exact H]].
Qed.

Lemma nth_In_some (i : nat) (v : column) (x : R) :
  nth i v None = Some x -> In (Some x) v.
Proof.
  revert i. induction v as [|c t IH]; intros [|i] H; simpl in *; try discriminate.
  - left. exact H.
  - right. eapply IH. exact H.
Qed.

Lemma has_col_get (df : frame) (c : string) :
  has_col df c = match get_col df c with Some _ => true | None => false end.
Proof.
  unfold has_col. induction df as [|[k w] t IH]; simpl; [reflexivity|].
  destruct (String.eqb k c); simpl; [reflexivity | exact IH].
Qed.

(** The table [normalize_indices] returns when both required columns are
    present, by which optional columns the input has. *)
Lemma normalize_indices_ok (df : frame) (v1 v2 : column) :
  get_col df "iri_designed" = Some v1 -> get_col df "iri_pca" = Some v2 ->
  normalize_indices df =
  Ok (match get_col df "iso_index", get_col df "transit_z" with
      | Some vi, Some vt =>
          set_col (set_col (set_col (set_col df "iri_designed_100" (minmax_col v1))
                                    "iri_pca_100" (minmax_col v2))
                           "iso_index_100" (minmax_col vi))
                  "transit_z_100" (minmax_col vt)
      | Some vi, None =>
          set_col (set_col (set_col df "iri_designed_100" (minmax_col v1))
                           "iri_pca_100" (minmax_col v2))
                  "iso_index_100" (minmax_col vi)
      | None, Some vt =>
          set_col (set_col (set_col df "iri_designed_100" (minmax_col v1))
                           "iri_pca_100" (minmax_col v2))
                  "transit_z_100" (minmax_col vt)
      | None, None =>
          set_col (set_col df "iri_designed_100" (minmax_col v1))
                  "iri_pca_100" (minmax_col v2)
      end).
Proof.
  intros H1 H2. unfold normalize_indices, missing.
  cbn [filter]. rewrite !has_col_get, H1, H2. cbn [negb].
  unfold column_of. rewrite H1. cbn [rbind].
  rewrite IndexExtraFacts.get_col_set. cbn [String.eqb Ascii.eqb Bool.eqb andb].
  rewrite H2. cbn [rbind].
  destruct (get_col df "iso_index") as [vi|] eqn:Ei;
    destruct (get_col df "transit_z") as [vt|] eqn:Et;
    cbn [normalize_optional rbind]; unfold column_of;
    repeat first [ rewrite IndexExtraFacts.get_col_set | rewrite Ei | rewrite Et
                 | progress cbn [String.eqb Ascii.eqb Bool.eqb andb append rbind] ];
    reflexivity.
Qed.

End ScriptFacts.

(** ** Facts on the local Moran statistics *)
Module MoranFacts.
Import QArith ZArith Moran.

Lemma permuted_ids_length (perms m k : nat) (s : Z) :
  length (permuted_ids perms m k s) = perms.
Proof.
  revert s. induction perms as [|p IH]; intro s; simpl; [reflexivity|].
  destruct (permutation m s) as [a s']. simpl. now rewrite IH.
Qed.

Lemma filter_length_le {A : Type} (f : A -> bool) (l : list A) :
  (length (filter f l) <= length l)%nat.
Proof.
  induction l as [|x t IH]; simpl; [lia|]. destruct (f x); simpl; lia.
Qed.

(** The folded count of [p_sim] is at most half the permutations. *)
Lemma p_sim_form (perms : nat) (obs : Q) (sims : list Q) :
  (length sims <= perms)%nat ->
  exists k, (2 * k <= perms)%nat /\
    p_sim perms obs sims = inject_Z (Z.of_nat (S k)) / inject_Z (Z.of_nat (S perms)).
Proof.
  intro Hl. unfold p_sim.
  pose proof (filter_length_le (fun v => Qle_bool obs v) sims) as Hf.
  set (larger := length (filter (fun v => Qle_bool obs v) sims)) in *.
  destruct (Nat.ltb (perms - larger) larger) eqn:E.
  - apply Nat.ltb_lt in E. exists (perms - larger)%nat. split; [lia | reflexivity].
  - apply Nat.ltb_ge in E. exists larger. split; [lia | reflexivity].
Qed.

Lemma quadrant_range (zi lg : Q) : (1 <= quadrant zi lg <= 4)%nat.
Proof.
  unfold quadrant. destruct (Qlt_le_dec 0 zi), (Qlt_le_dec 0 lg); lia.
Qed.

End MoranFacts.

(** ** The seed of the local Moran permutation test *)
Module MoranSeed.
Import QArith ZArith Moran.








End MoranSeed.

(** ** The PCA index does not depend on the sign sklearn gives PC1 *)
Module SignFacts.
Import Frame FrameFacts AlignFacts.
Local Open Scope string_scope.

Lemma all_some_neg (z : column) :
  all_some (map (option_map Ropp) z) = option_map (map Ropp) (all_some z).
Proof.
  induction z as [|[x|] t IH]; simpl; [reflexivity | | reflexivity].
  rewrite IH. destruct (all_some t); reflexivity.
Qed.

Lemma corrcoef_neg (z iso : column) :
  corrcoef (map (option_map Ropp) z) iso = option_map Ropp (corrcoef z iso).
Proof.
  unfold corrcoef. rewrite all_some_neg.
  destruct (all_some z) as [xz|]; simpl; [|reflexivity].
  destruct (all_some iso) as [xi|]; [|reflexivity].
  rewrite ss_opp. destruct (Req_EM_T (ss xz * ss xi) 0); [reflexivity|].
  simpl. f_equal. rewrite ss_cov_opp. unfold Rdiv. ring.
Qed.

Lemma standardize_scores_neg (s : list R) :
  standardize_scores (map Ropp s) = map (option_map Ropp) (standardize_scores s).
Proof.
  unfold standardize_scores. rewrite std_opp.
  destruct (std 0 s) as [sd|]; [|reflexivity].
  destruct (Req_EM_T sd 0); rewrite !map_map; apply map_ext; intro x; [reflexivity|].
  simpl. f_equal. rewrite mean_opp. unfold Rdiv. ring.
Qed.

Lemma neg_neg_col (z : column) : map (option_map Ropp) (map (option_map Ropp) z) = z.
Proof.
  induction z as [|[x|] t IH]; simpl; rewrite ?IH; [reflexivity | | reflexivity].
  now rewrite Ropp_involutive.
Qed.

Lemma align_sign_neg (df : frame) (z iso : column) :
  get_col df "iso_index" = Some iso ->
  (exists c, corrcoef z iso = Some c /\ c <> 0) ->
  align_sign df (map (option_map Ropp) z) = align_sign df z.
Proof.
  intros Hiso [c [Hcc Hc0]]. unfold align_sign.
  assert (Hh : has_col df "iso_index" = true) by (apply get_col_has; eauto).
  rewrite Hh. unfold column_of. rewrite Hiso, length_map.
  destruct (negb (Nat.eqb (length z) (length iso))); [reflexivity|].
  rewrite corrcoef_neg, Hcc. simpl.
  destruct (Rlt_dec (- c) 0), (Rlt_dec c 0); try lra.
  - now rewrite neg_neg_col.
  - reflexivity.
Qed.

End SignFacts.

(** ** Facts on ward-code harmonisation *)
Module WardFacts.
Import Ascii WardCodes.

Lemma hd_ok_app (a b : list ascii) :
  hd_ok (a ++ b) = match a with [] => hd_ok b | _ => hd_ok a end.
Proof. destruct a; reflexivity. Qed.

Lemma lstrip_hd_ok (l : list ascii) : hd_ok (lstrip l) = true.
Proof.
  induction l as [|c t IH]; simpl; [reflexivity|].
  destruct (py_isspace c) eqn:E; [exact IH | simpl; now rewrite E].
Qed.

Lemma lstrip_id (l : list ascii) : hd_ok l = true -> lstrip l = l.
Proof.
  destruct l as [|c t]; simpl; [reflexivity|].
  intro H. destruct (py_isspace c); [discriminate | reflexivity].
Qed.

Lemma lstrip_suffix (l : list ascii) : exists p, l = p ++ lstrip l.
Proof.
  induction l as [|c t [p IH]]; simpl; [now exists []|].
  destruct (py_isspace c); [exists (c :: p); simpl; now rewrite <- IH | now exists []].
Qed.

Lemma strip_ok (l : list ascii) :
  hd_ok (strip l) = true /\ hd_ok (rev (strip l)) = true.
Proof.
  unfold strip. split; [|rewrite rev_involutive; apply lstrip_hd_ok].
  pose proof (lstrip_hd_ok l) as Hu.
  destruct (lstrip_suffix (rev (lstrip l))) as [p Hp].
  rewrite <- (rev_involutive (lstrip l)) in Hu. rewrite Hp, rev_app_distr, hd_ok_app in Hu.
  destruct (rev (lstrip (rev (lstrip l)))); [reflexivity | exact Hu].
Qed.

Lemma strip_id (l : list ascii) :
  hd_ok l = true -> hd_ok (rev l) = true -> strip l = l.
Proof.
  intros H1 H2. unfold strip. rewrite (lstrip_id l H1), (lstrip_id (rev l) H2).
  apply rev_involutive.
Qed.

Lemma hd_ok_zeros (k : nat) : hd_ok (repeat "0"%char k) = true.
Proof. destruct k; reflexivity. Qed.

Lemma rev_repeat' {A : Type} (x : A) (k : nat) : rev (repeat x k) = repeat x k.
Proof.
  induction k as [|k IH]; simpl; [reflexivity|]. rewrite IH.
  clear IH. induction k as [|k IH]; simpl; [reflexivity|]. now rewrite IH.
Qed.

Lemma zfill_ok (w : nat) (s : list ascii) :
  hd_ok s = true -> hd_ok (rev s) = true ->
  hd_ok (zfill w s) = true /\ hd_ok (rev (zfill w s)) = true.
Proof.
  intros H1 H2. unfold zfill. destruct (Nat.leb w (length s)); [auto|].
  set (fill := repeat "0"%char (w - length s)).
  assert (Hf : hd_ok fill = true) by apply hd_ok_zeros.
  assert (Hrf : hd_ok (rev fill) = true) by (unfold fill; rewrite rev_repeat'; apply hd_ok_zeros).
  destruct s as [|c t]; [auto|].
  destruct (Ascii.eqb c "+"%char || Ascii.eqb c "-"%char)%bool eqn:Es.
  - split.
    + simpl. apply Bool.orb_true_iff in Es.
      destruct Es as [E|E]; apply Ascii.eqb_eq in E; subst c; reflexivity.
    + simpl in H2 |- *. rewrite rev_app_distr, <- app_assoc, hd_ok_app.
      rewrite hd_ok_app in H2. destruct (rev t); [|exact H2].
      rewrite hd_ok_app. destruct (rev fill); [|exact Hrf].
      apply Bool.orb_true_iff in Es.
      destruct Es as [E|E]; apply Ascii.eqb_eq in E; subst c; reflexivity.
  - split.
    + rewrite hd_ok_app. destruct fill; [exact H1 | exact Hf].
    + rewrite rev_app_distr, hd_ok_app. simpl rev in H2 |- *.
      destruct (rev t ++ [c]) eqn:E; [destruct (rev t); discriminate | exact H2].
Qed.

Lemma zfill_length (w : nat) (s : list ascii) : (w <= length (zfill w s))%nat.
Proof.
  unfold zfill. destruct (Nat.leb w (length s)) eqn:E.
  - apply Nat.leb_le in E. exact E.
  - apply Nat.leb_gt in E. destruct s as [|c t].
    + rewrite repeat_length. simpl. lia.
    + destruct (Ascii.eqb c "+"%char || Ascii.eqb c "-"%char)%bool;
        simpl in *; rewrite ?length_app, ?repeat_length; simpl; lia.
Qed.

Lemma zfill_long (w : nat) (s : list ascii) : (w <= length s)%nat -> zfill w s = s.
Proof.
  intro H. unfold zfill. apply Nat.leb_le in H. now rewrite H.
Qed.

Lemma length_string_of_list (l : list ascii) :
  String.length (string_of_list_ascii l) = length l.
Proof. induction l as [|c t IH]; simpl; [reflexivity | now rewrite IH]. Qed.

End WardFacts.

(** * Further properties of the pipeline *)
Module Extras.
Import Standardize.

(** [minmax_0_100] (13_normalize_indices.py) never reverses the order of
    two rows: a row whose value is at most another's keeps a scaled value
    at most the other's. *)
Theorem minmax_0_100_monotone (series : list R) (i j : nat) :
  (i < length series)%nat -> (j < length series)%nat ->
  nth i series 0 <= nth j series 0 ->
  nth i (Normalize.minmax_0_100 series) 0 <= nth j (Normalize.minmax_0_100 series) 0.
Proof.
  intros Hi Hj Hle. destruct series as [|x0 t]; [simpl in Hi; lia|].
  pose proof (AffineFacts.series_min_le_max (x0 :: t)) as Hmm.
  set (mn := Normalize.series_min (x0 :: t)) in *.
  set (mx := Normalize.series_max (x0 :: t)) in *.
  set (g := fun x => if Req_EM_T (mx - mn) 0 then 50 else 100 * (x - mn) / (mx - mn)).
  assert (Hshape : Normalize.minmax_0_100 (x0 :: t) = map g (x0 :: t)).
  { unfold Normalize.minmax_0_100, g. fold mn mx.
    destruct (Req_EM_T (mx - mn) 0); reflexivity. }
  rewrite Hshape.
  rewrite (nth_indep (map g (x0 :: t)) (n := i) 0 (g 0))
    by (rewrite length_map; assumption).
  rewrite (nth_indep (map g (x0 :: t)) (n := j) 0 (g 0))
    by (rewrite length_map; assumption).
  rewrite !map_nth. unfold g.
  destruct (Req_EM_T (mx - mn) 0) as [Z|NZ]; [lra|].
  assert (Hp : 0 < mx - mn) by lra.
  unfold Rdiv. apply Rmult_le_compat_r; [left; now apply Rinv_0_lt_compat|]. lra.
Qed.

(** [minmax_0_100] is unit-free: rescaling a column by a positive factor
    and shifting it leaves the 0-100 scores unchanged. *)
Theorem minmax_0_100_affine_invariant (a b : R) (series : list R) (Ha : 0 < a) :
  Normalize.minmax_0_100 (map (fun x => a * x + b) series) = Normalize.minmax_0_100 series.
Proof.
  destruct series as [|x0 t]; [reflexivity|].
  cbn [map]. rewrite !AffineFacts.minmax_shape.
  rewrite AffineFacts.fold_min_aff, AffineFacts.fold_max_aff by exact Ha.
  change (a * x0 + b :: map (fun x => a * x + b) t)
    with (map (fun x => a * x + b) (x0 :: t)).
  rewrite map_map. apply map_ext. intro x.
  set (mn := fold_left Rmin t x0); set (mx := fold_left Rmax t x0).
  destruct (Req_EM_T (a * mx + b - (a * mn + b)) 0) as [Z|NZ];
    destruct (Req_EM_T (mx - mn) 0) as [Z'|NZ']; try reflexivity.
  all: try (exfalso; apply NZ'; nra); try (exfalso; apply NZ; rewrite <- Rmult_0_r with (r := a); nra).
  all: field; split; [intro H; apply NZ'; lra | lra].
Qed.

Lemma minmax_0_100_monotone_witness :
  (0 < length [1; 3])%nat /\ (1 < length [1; 3])%nat /\
  nth 0 [1; 3] 0 <= nth 1 [1; 3] 0 /\
  nth 0 (Normalize.minmax_0_100 [1; 3]) 0 <= nth 1 (Normalize.minmax_0_100 [1; 3]) 0.
Proof.
  assert (H0 : (0 < length [1; 3])%nat) by (simpl; lia).
  assert (H1 : (1 < length [1; 3])%nat) by (simpl; lia).
  assert (Hle : nth 0 [1; 3] 0 <= nth 1 [1; 3] 0) by (simpl; lra).
  split; [exact H0|]. split; [exact H1|]. split; [exact Hle|].
  exact (minmax_0_100_monotone [1; 3] 0 1 H0 H1 Hle).
Defined.

Lemma minmax_0_100_affine_invariant_witness :
  0 < 2 /\
  Normalize.minmax_0_100 (map (fun x => 2 * x + 1) [1; 3]) = Normalize.minmax_0_100 [1; 3].
Proof.
  assert (Ha : 0 < 2) by lra.
  split; [exact Ha|]. exact (minmax_0_100_affine_invariant 2 1 [1; 3] Ha).
Defined.

(** [access_z] (07_ingest_tokyo_access.py): after the rows with a missing
    [access_raw] are dropped, the step raises [ValueError] exactly when
    fewer than two values remain or all remaining values are equal, and
    raises nothing else; otherwise it returns one z-score per remaining
    row, with mean 0 and sample standard deviation 1. *)
Theorem access_z_outcomes (raw : list (option R)) :
  (forall e, access_z raw = Raise e -> e = ValueError) /\
  (access_z raw = Raise ValueError <->
     (length (dropna raw) <= 1)%nat \/ ss (dropna raw) = 0) /\
  (forall z, access_z raw = Ok z ->
     length z = length (dropna raw) /\ mean z = 0 /\ std 1 z = Some 1).
Proof.
  unfold access_z. set (l := dropna raw).
  destruct (std 1 l) as [sd|] eqn:E.
  - pose proof (SampleStdFacts.std1_zero_iff l sd E) as Hz.
    assert (Hlen : (1 < length l)%nat).
    { unfold std in E. destruct (Nat.leb (length l) 1) eqn:L; [discriminate|].
      now apply Nat.leb_gt. }
    destruct (Req_EM_T sd 0) as [Z|NZ].
    + split; [intros e H; injection H as <-; reflexivity|].
      split; [split; [intros _; right; now apply Hz | reflexivity]|].
      intros z H; discriminate.
    + split; [intros e H; discriminate|].
      split; [split; [intro H; discriminate | intros [H|H]; [lia|]]|].
      * exfalso. apply NZ. now apply Hz.
      * intros z H. injection H as <-.
        destruct (StdFacts.standardize_std 1 l sd E NZ) as [Hm Hs].
        split; [apply length_map|]. split; assumption.
  - apply ColumnFacts.std_none_nil in E.
    split; [intros e H; injection H as <-; reflexivity|].
    split; [split; [intros _; now left | reflexivity]|].
    intros z H; discriminate.
Qed.

(** [transit_z] (09_ingest_transit_alt.py): every ward gets a finite
    z-score, with mean 0, when there are at least two wards and their
    station densities differ; otherwise every ward's [transit_z] is NaN. *)
Theorem transit_z_defined_iff (d : list R) :
  ((2 <= length d)%nat /\ ss d <> 0 ->
     exists z, transit_z d = map Some z /\ length z = length d /\ mean z = 0) /\
  ((length d <= 1)%nat \/ ss d = 0 -> transit_z d = map (fun _ => None) d).
Proof.
  unfold transit_z. split.
  - intros [Hl Hs].
    destruct (ColumnFacts.std_nonconst 1 d Hs ltac:(lia)) as [sd [E NZ]].
    rewrite E. exists (map (fun x => (x - mean d) / sd) d).
    split; [rewrite map_map; apply map_ext; intro x;
            destruct (Req_EM_T sd 0); [contradiction | reflexivity]|].
    split; [apply length_map|].
    exact (proj1 (StdFacts.standardize_std 1 d sd E NZ)).
  - intros H. destruct (std 1 d) as [sd|] eqn:E; [|reflexivity].
    assert (Hz : sd = 0).
    { apply (SampleStdFacts.std1_zero_iff d sd E). destruct H as [H|H]; [|exact H].
      unfold std in E. destruct (Nat.leb (length d) 1) eqn:L; [discriminate|].
      apply Nat.leb_gt in L. lia. }
    apply map_ext. intro x. destruct (Req_EM_T sd 0); [reflexivity | contradiction].
Qed.

(** [compute_isolation_index] (uix/index.py) on a complete numeric table
    (every column NaN-free with the same number of rows): on success the
    index column is NaN-free and has mean 0, whatever the weights, since
    it is a weighted sum of z-scored (or all-zero) columns. *)
Theorem isolation_index_mean_zero (df : Frame.frame)
  (config : Frame.IsolationIndexConfig) (n : nat)
  (Hfull : forall c v, Frame.get_col df c = Some v ->
             exists xs, v = map Some xs /\ length xs = n) :
  forall out, Frame.compute_isolation_index df config = Ok out ->
  exists s, Frame.get_col out (Frame.index_col config) = Some (map Some s) /\
            mean s = 0.
Proof.
  intros out H. unfold Frame.compute_isolation_index in H.
  destruct (Frame.zscore_metrics (Frame.metrics config) df []) as [[o zc]|e] eqn:Ezm;
    [|discriminate].
  destruct (IndexExtraFacts.zm_complete n _ df [] o zc Hfull
              ltac:(intros k z Hk; discriminate Hk) Ezm) as [_ Hz].
  destruct (Frame.weighted_sum (Frame.weights config) o zc (Frame.Scalar 0)) as [idx|e]
    eqn:Ews; [|discriminate].
  injection H as <-. rewrite FrameFacts.get_col_set_same.
  destruct (IndexExtraFacts.ws_complete n _ o zc _ idx Hz (or_introl eq_refl) Ews)
    as [-> | [s [-> [_ Hs]]]]; simpl.
  - exists (repeat 0 (Frame.nrows o)). split; [f_equal; apply IndexExtraFacts.repeat_some0|].
    apply IndexExtraFacts.mean_sum0, IndexExtraFacts.sumR_repeat0.
  - exists s. split; [reflexivity | now apply IndexExtraFacts.mean_sum0].
Qed.

Lemma isolation_index_mean_zero_witness :
  exists s, Frame.get_col
    (match Frame.compute_isolation_index
             [("pct_age65p", [Some 1; Some 3]); ("pct_single65p", [Some 2; Some 2]);
              ("poverty_rate", [Some 0; Some 5])]%string Frame.default_config
     with Ok o => o | Raise _ => [] end) "iso_index"%string = Some (map Some s) /\ mean s = 0.
Proof.
  apply (isolation_index_mean_zero
           [("pct_age65p", [Some 1; Some 3]); ("pct_single65p", [Some 2; Some 2]);
            ("poverty_rate", [Some 0; Some 5])]%string Frame.default_config 2);
    [|reflexivity].
  intros c v H. cbn [Frame.get_col] in H.
  destruct (String.eqb "pct_age65p" c);
    [injection H as <-; exists [1; 3]; split; reflexivity|].
  destruct (String.eqb "pct_single65p" c);
    [injection H as <-; exists [2; 2]; split; reflexivity|].
  destruct (String.eqb "poverty_rate" c);
    [injection H as <-; exists [0; 5]; split; reflexivity|].
  discriminate.
Defined.

(** [compute_isolation_index] is unit-free in each metric: replacing a
    column [m] by [a * m + b] with [a > 0] (NaN cells stay NaN) changes
    neither whether the call raises nor any column of the result other
    than [m] itself: the z-scores and the index are the same. *)
Theorem isolation_index_affine_invariant (df : Frame.frame)
  (config : Frame.IsolationIndexConfig) (m : string) (a b : R) (Ha : 0 < a) :
  let df' := Transforms.map_col m (map (Transforms.affine_cell a b)) df in
  (forall e, Frame.compute_isolation_index df' config = Raise e <->
             Frame.compute_isolation_index df config = Raise e) /\
  (forall out out', Frame.compute_isolation_index df config = Ok out ->
     Frame.compute_isolation_index df' config = Ok out' ->
     forall c, c <> m -> Frame.get_col out' c = Frame.get_col out c).
Proof.
  intro df'.
  set (f := map (Transforms.affine_cell a b)).
  assert (Hlen : forall v, length (f v) = length v) by (intro; apply length_map).
  assert (Hz : forall v, Frame.zscore_col (f v) = Frame.zscore_col v)
    by (intro; now apply IndexExtraFacts.zscore_col_aff).
  pose proof (IndexExtraFacts.map_col_rel m f df) as Hr.
  pose proof (IndexExtraFacts.zm_rel m f Hz (Frame.metrics config) df df' [] Hr
                ltac:(intros k z Hk; discriminate Hk)) as Hzm.
  unfold Frame.compute_isolation_index.
  destruct (Frame.zscore_metrics (Frame.metrics config) df []) as [[o1 z1]|e1];
    destruct (Frame.zscore_metrics (Frame.metrics config) df' []) as [[o2 z2]|e2];
    try contradiction.
  - destruct Hzm as [-> [Ho Hzc]].
    rewrite (IndexExtraFacts.ws_rel _ _ _ _ _ Hzc).
    rewrite (IndexExtraFacts.rel_nrows m f Hlen o1 o2 Ho).
    destruct (Frame.weighted_sum (Frame.weights config) o1 z1 (Frame.Scalar 0)) as [idx|e].
    + split; [intro e; split; discriminate|].
      intros out out' H1 H2. injection H1 as <-. injection H2 as <-. intros c Hc.
      destruct (IndexExtraFacts.rel_get m f _ _ c
                  (IndexExtraFacts.rel_set m f o1 o2 (Frame.index_col config)
                     (Frame.acc_column idx (Frame.nrows o1)) Ho))
        as [E | [E _]]; [exact E | contradiction].
    + split; [reflexivity | intros out out' H1; discriminate].
  - subst e2. split; [reflexivity | intros out out' H1; discriminate].
Qed.

Lemma isolation_index_affine_invariant_witness :
  0 < 2 /\
  forall c, c <> "pct_age65p"%string ->
    Frame.get_col
      (match Frame.compute_isolation_index
               (Transforms.map_col "pct_age65p" (map (Transforms.affine_cell 2 1))
                  [("pct_age65p", [Some 1; Some 3]); ("pct_single65p", [Some 2; Some 2]);
            ("poverty_rate", [Some 0; Some 5])]%string)
               Frame.default_config with Ok o => o | Raise _ => [] end) c =
    Frame.get_col
      (match Frame.compute_isolation_index
               [("pct_age65p", [Some 1; Some 3]); ("pct_single65p", [Some 2; Some 2]);
            ("poverty_rate", [Some 0; Some 5])]%string
               Frame.default_config with Ok o => o | Raise _ => [] end) c.
Proof.
  split; [lra|].
  apply (proj2 (isolation_index_affine_invariant
                  [("pct_age65p", [Some 1; Some 3]); ("pct_single65p", [Some 2; Some 2]);
            ("poverty_rate", [Some 0; Some 5])]%string
                  Frame.default_config "pct_age65p" 2 1 ltac:(lra)));
    reflexivity.
Defined.

(** [compute_isolation_index] never alters an input column other than
    the [<metric>_z] columns it writes and the index column: on success
    every other column of the result is the input's column. *)
Theorem isolation_index_keeps_columns (df : Frame.frame)
  (config : Frame.IsolationIndexConfig) (out : Frame.frame) (c : string)
  (Hok : Frame.compute_isolation_index df config = Ok out)
  (Hidx : c <> Frame.index_col config)
  (Hz : forall m, In m (Frame.metrics config) -> c <> (m ++ "_z")%string) :
  Frame.get_col out c = Frame.get_col df c.
Proof.
  unfold Frame.compute_isolation_index in Hok.
  destruct (Frame.zscore_metrics (Frame.metrics config) df []) as [[o zc]|e] eqn:Ezm;
    [|discriminate].
  destruct (Frame.weighted_sum (Frame.weights config) o zc (Frame.Scalar 0)) as [idx|e];
    [|discriminate].
  injection Hok as <-. rewrite FrameFacts.get_col_set_other by congruence.
  exact (IndexExtraFacts.zm_keep _ _ _ _ _ Ezm c Hz).
Qed.

Lemma isolation_index_keeps_columns_witness :
  Frame.get_col
    (match Frame.compute_isolation_index
             [("ward_jis", [Some 13101]); ("pct_age65p", [Some 20]);
              ("pct_single65p", [Some 5]); ("poverty_rate", [Some 10])]%string
             Frame.default_config with Ok out => out | Raise _ => [] end)
    "ward_jis"%string = Some [Some 13101].
Proof.
  set (df := [("ward_jis", [Some 13101]); ("pct_age65p", [Some 20]);
              ("pct_single65p", [Some 5]); ("poverty_rate", [Some 10])]%string).
  assert (Hok : exists out, Frame.compute_isolation_index df Frame.default_config = Ok out).
  { unfold Frame.compute_isolation_index. simpl. eexists. reflexivity. }
  destruct Hok as [out Hok]. rewrite Hok.
  rewrite (isolation_index_keeps_columns df Frame.default_config out "ward_jis" Hok).
  - reflexivity.
  - discriminate.
  - intros m Hm. simpl in Hm. destruct Hm as [<- | [<- | [<- | []]]]; discriminate.
Defined.

(** [build_designed_index.py] and [11_build_final_index.py]: the only
    exception either script raises is [ValueError], and it raises exactly
    when one of [pct_age65p_z], [pct_single65p_z], [poverty_rate_z],
    [transit_z] is absent; with all four present it always succeeds. *)
Theorem combine_scripts_errors (df : Frame.frame) :
  (forall e, Scripts.build_designed_index df = Raise e -> e = ValueError) /\
  (forall e, Scripts.build_final_index df = Raise e -> e = ValueError) /\
  ((exists out, Scripts.build_designed_index df = Ok out) <->
     forall c, In c Scripts.required_z -> Frame.has_col df c = true) /\
  ((exists out, Scripts.build_final_index df = Ok out) <->
     forall c, In c Scripts.required_z -> Frame.has_col df c = true).
Proof.
  destruct (Scripts.missing df Scripts.required_z) as [|c t] eqn:Em.
  - destruct (ScriptFacts.required_cols df Em) as (a & s & p & t & Ha & Hs & Hp & Ht).
    pose proof (proj1 (ScriptFacts.missing_nil_iff df _) Em) as Hall.
    rewrite (ScriptFacts.build_designed_index_ok df a s p t Em Ha Hs Hp Ht).
    destruct (ScriptFacts.build_final_index_ok df a s p t Em Ha Hs Hp Ht) as [out [Hout _]].
    rewrite Hout.
    split; [intros e He; discriminate|]. split; [intros e He; discriminate|].
    split; (split; [intros _; exact Hall | intros _; eexists; reflexivity]).
  - destruct (ScriptFacts.missing_cons_raise df _ c t Em) as [Hin Hn].
    unfold Scripts.build_designed_index, Scripts.build_final_index. rewrite Em.
    split; [intros e He; injection He as <-; reflexivity|].
    split; [intros e He; injection He as <-; reflexivity|].
    split; (split; [intros [out Hout]; discriminate |
                    intro Hall; rewrite (Hall c Hin) in Hn; discriminate]).
Qed.

(** [build_designed_index.py] writes only the [neg_transit_z] and
    [iri_designed] columns: every other column of its output is the
    input's column. *)
Theorem designed_index_keeps_columns (df out : Frame.frame) (c : string)
  (Hok : Scripts.build_designed_index df = Ok out)
  (H1 : c <> "neg_transit_z"%string) (H2 : c <> "iri_designed"%string) :
  Frame.get_col out c = Frame.get_col df c.
Proof.
  destruct (Scripts.missing df Scripts.required_z) eqn:Em;
    [|unfold Scripts.build_designed_index in Hok; rewrite Em in Hok; discriminate].
  destruct (ScriptFacts.required_cols df Em) as (a & s & p & t & Ha & Hs & Hp & Ht).
  rewrite (ScriptFacts.build_designed_index_ok df a s p t Em Ha Hs Hp Ht) in Hok.
  injection Hok as <-.
  rewrite !FrameFacts.get_col_set_other by congruence. reflexivity.
Qed.

Lemma designed_index_keeps_columns_witness :
  Frame.get_col
    (match Scripts.build_designed_index
             [("ward_jis", [Some 13101]); ("pct_age65p_z", [Some 1]);
              ("pct_single65p_z", [Some 0]); ("poverty_rate_z", [Some 2]);
              ("transit_z", [Some 1])]%string
     with Ok o => o | Raise _ => [] end) "ward_jis"%string = Some [Some 13101].
Proof.
  apply (designed_index_keeps_columns
           [("ward_jis", [Some 13101]); ("pct_age65p_z", [Some 1]);
            ("pct_single65p_z", [Some 0]); ("poverty_rate_z", [Some 2]);
            ("transit_z", [Some 1])]%string);
    [reflexivity | discriminate | discriminate].
Defined.

(** [build_designed_index.py]: pandas arithmetic does not skip NaN, so a
    row of [iri_designed] is NaN exactly when one of its four input z
    values is NaN in that row. *)
Theorem designed_index_nan_rows (df out : Frame.frame) (a s p t : Frame.column) (i : nat)
  (Hok : Scripts.build_designed_index df = Ok out)
  (Ha : Frame.get_col df "pct_age65p_z"%string = Some a)
  (Hs : Frame.get_col df "pct_single65p_z"%string = Some s)
  (Hp : Frame.get_col df "poverty_rate_z"%string = Some p)
  (Ht : Frame.get_col df "transit_z"%string = Some t)
  (Hi : (i < length a /\ i < length s /\ i < length p /\ i < length t)%nat) :
  exists r, Frame.get_col out "iri_designed"%string = Some r /\
    (nth i r None = None <->
     nth i a None = None \/ nth i s None = None \/
     nth i p None = None \/ nth i t None = None).
Proof.
  destruct (Scripts.missing df Scripts.required_z) eqn:Em;
    [|unfold Scripts.build_designed_index in Hok; rewrite Em in Hok; discriminate].
  rewrite (ScriptFacts.build_designed_index_ok df a s p t Em Ha Hs Hp Ht) in Hok.
  injection Hok as <-. eexists. split; [apply FrameFacts.get_col_set_same|].
  rewrite !ScriptFacts.nth_col_add
    by (rewrite ?ScriptFacts.length_col_add, ?ScriptFacts.length_col_scale,
          ?ScriptFacts.length_col_neg; lia).
  rewrite !ScriptFacts.nth_col_scale, ScriptFacts.nth_col_neg.
  rewrite !ScriptFacts.fadd_none, !ScriptFacts.fmul_none, ScriptFacts.option_map_none.
  tauto.
Qed.

Lemma designed_index_nan_rows_witness :
  exists r, Frame.get_col
    (match Scripts.build_designed_index
             [("pct_age65p_z", [Some 1; None]); ("pct_single65p_z", [Some 0; Some 1]);
              ("poverty_rate_z", [Some 2; Some 0]); ("transit_z", [Some 1; Some 1])]%string
     with Ok o => o | Raise _ => [] end) "iri_designed"%string = Some r /\
    (nth 1 r None = None <->
     nth 1 [Some 1; None] None = None \/ nth 1 [Some 0; Some 1] None = None \/
     nth 1 [Some 2; Some 0] None = None \/ nth 1 [Some 1; Some 1] None = None).
Proof.
  apply (designed_index_nan_rows
           [("pct_age65p_z", [Some 1; None]); ("pct_single65p_z", [Some 0; Some 1]);
            ("poverty_rate_z", [Some 2; Some 0]); ("transit_z", [Some 1; Some 1])]%string);
    [reflexivity | reflexivity | reflexivity | reflexivity | reflexivity | simpl; lia].
Defined.

(** [11_build_final_index.py] on a complete numeric table (every column
    NaN-free with the same number of rows): [iso_final] is NaN-free and
    has mean 0, since each component is re-standardised by [safe_z]
    (or zeroed) before the weighted sum. *)
Theorem final_index_mean_zero (df out : Frame.frame) (n : nat)
  (Hfull : forall c v, Frame.get_col df c = Some v ->
             exists xs, v = map Some xs /\ length xs = n)
  (Hok : Scripts.build_final_index df = Ok out) :
  exists s, Frame.get_col out "iso_final"%string = Some (map Some s) /\ mean s = 0.
Proof.
  destruct (Scripts.missing df Scripts.required_z) eqn:Em;
    [|unfold Scripts.build_final_index in Hok; rewrite Em in Hok; discriminate].
  destruct (ScriptFacts.required_cols df Em) as (a & s & p & t & Ha & Hs & Hp & Ht).
  destruct (ScriptFacts.build_final_index_ok df a s p t Em Ha Hs Hp Ht) as [out0 [H0 Hi0]].
  rewrite H0 in Hok. injection Hok as <-. rewrite Hi0.
  destruct (Hfull _ _ Ha) as [xa [-> Hla]]. destruct (Hfull _ _ Hs) as [xs [-> Hls]].
  destruct (Hfull _ _ Hp) as [xp [-> Hlp]]. destruct (Hfull _ _ Ht) as [xt [-> Hlt]].
  rewrite !ScriptFacts.col_scale_some, ScriptFacts.col_add_some, ScriptFacts.col_neg_some.
  destruct (ScriptFacts.safe_z_col_complete
              (map (fun q => fst q + snd q)
                 (combine (map (fun x => 0.5 * x) xa) (map (fun x => 0.5 * x) xs))))
    as [d [Hd [Hdl Hds]]].
  destruct (ScriptFacts.safe_z_col_complete xp) as [so [Hso [Hsol Hsos]]].
  destruct (ScriptFacts.safe_z_col_complete (map Ropp xt)) as [tr [Htr [Htrl Htrs]]].
  rewrite Hd, Hso, Htr, !ScriptFacts.col_scale_some, !ScriptFacts.col_add_some.
  rewrite length_map, length_combine, !length_map in Hdl. rewrite length_map in Htrl.
  eexists. split; [reflexivity|]. apply IndexExtraFacts.mean_sum0.
  rewrite !ScriptFacts.sumR_add; rewrite ?length_map, ?length_combine, ?length_map; try lia.
  rewrite !ScriptFacts.sumR_mul, Hds, Hsos, Htrs. ring.
Qed.

Lemma final_index_mean_zero_witness :
  exists s, Frame.get_col
    (match Scripts.build_final_index
             [("pct_age65p_z", [Some 1; Some 0]); ("pct_single65p_z", [Some 0; Some 1]);
              ("poverty_rate_z", [Some 2; Some 0]); ("transit_z", [Some 1; Some 3])]%string
     with Ok o => o | Raise _ => [] end) "iso_final"%string = Some (map Some s) /\ mean s = 0.
Proof.
  apply (final_index_mean_zero
           [("pct_age65p_z", [Some 1; Some 0]); ("pct_single65p_z", [Some 0; Some 1]);
            ("poverty_rate_z", [Some 2; Some 0]); ("transit_z", [Some 1; Some 3])]%string
           _ 2).
  - intros c v H. cbn [Frame.get_col] in H.
    destruct (String.eqb "pct_age65p_z" c);
      [injection H as <-; exists [1; 0]; split; reflexivity|].
    destruct (String.eqb "pct_single65p_z" c);
      [injection H as <-; exists [0; 1]; split; reflexivity|].
    destruct (String.eqb "poverty_rate_z" c);
      [injection H as <-; exists [2; 0]; split; reflexivity|].
    destruct (String.eqb "transit_z" c);
      [injection H as <-; exists [1; 3]; split; reflexivity|].
    discriminate.
  - reflexivity.
Defined.

(** [11_build_final_index.py] is unit-free in [poverty_rate_z] and
    [transit_z]: replacing either column by [a * x + b] with [a > 0]
    (NaN stays NaN) changes neither whether the script raises nor the
    [iso_final] column. *)
Theorem final_index_affine_invariant (df : Frame.frame) (m : string) (a b : R)
  (Hm : m = "poverty_rate_z"%string \/ m = "transit_z"%string) (Ha : 0 < a) :
  let df' := Transforms.map_col m (map (Transforms.affine_cell a b)) df in
  (forall e, Scripts.build_final_index df' = Raise e <-> Scripts.build_final_index df = Raise e) /\
  (forall out out', Scripts.build_final_index df = Ok out ->
     Scripts.build_final_index df' = Ok out' ->
     Frame.get_col out' "iso_final"%string = Frame.get_col out "iso_final"%string).
Proof.
  intro df'.
  assert (Em' : Scripts.missing df' Scripts.required_z = Scripts.missing df Scripts.required_z)
    by apply ScriptFacts.missing_map_col.
  assert (Hget : forall c, Frame.get_col df' c =
            if String.eqb c m then option_map (map (Transforms.affine_cell a b)) (Frame.get_col df c)
            else Frame.get_col df c) by (intro; apply ScriptFacts.get_col_map_col).
  destruct (Scripts.missing df Scripts.required_z) as [|c t] eqn:Em.
  - destruct (ScriptFacts.required_cols df Em) as (pa & ps & pp & pt & Ha' & Hs & Hp & Ht).
    destruct (ScriptFacts.build_final_index_ok df pa ps pp pt Em Ha' Hs Hp Ht) as [o0 [H0 Hi0]].
    rewrite H0.
    destruct Hm as [-> | ->].
    + destruct (ScriptFacts.build_final_index_ok df' pa ps (map (Transforms.affine_cell a b) pp) pt
                  Em')
        as [o1 [H1 Hi1]];
        try (rewrite Hget; cbn [String.eqb Ascii.eqb Bool.eqb andb];
             first [rewrite Hp; reflexivity | assumption]).
      rewrite H1. split; [intro e; split; discriminate|].
      intros out out' E1 E2. injection E1 as <-. injection E2 as <-.
      rewrite Hi0, Hi1, ScriptFacts.safe_z_col_aff by exact Ha. reflexivity.
    + destruct (ScriptFacts.build_final_index_ok df' pa ps pp (map (Transforms.affine_cell a b) pt)
                  Em')
        as [o1 [H1 Hi1]];
        try (rewrite Hget; cbn [String.eqb Ascii.eqb Bool.eqb andb];
             first [rewrite Ht; reflexivity | assumption]).
      rewrite H1. split; [intro e; split; discriminate|].
      intros out out' E1 E2. injection E1 as <-. injection E2 as <-.
      rewrite Hi0, Hi1, ScriptFacts.col_neg_aff, ScriptFacts.safe_z_col_aff by exact Ha.
      reflexivity.
  - unfold Scripts.build_final_index. rewrite Em', Em.
    split; [reflexivity | intros out out' E1; discriminate].
Qed.

Lemma final_index_affine_invariant_witness :
  ("transit_z" = "poverty_rate_z" \/ "transit_z" = "transit_z")%string /\ 0 < 3 /\
  forall out out',
    Scripts.build_final_index
      [("pct_age65p_z", [Some 1; Some 0]); ("pct_single65p_z", [Some 0; Some 1]);
       ("poverty_rate_z", [Some 2; Some 0]); ("transit_z", [Some 1; Some 3])]%string = Ok out ->
    Scripts.build_final_index
      (Transforms.map_col "transit_z" (map (Transforms.affine_cell 3 (-1)))
        [("pct_age65p_z", [Some 1; Some 0]); ("pct_single65p_z", [Some 0; Some 1]);
         ("poverty_rate_z", [Some 2; Some 0]); ("transit_z", [Some 1; Some 3])])%string = Ok out' ->
    Frame.get_col out' "iso_final"%string = Frame.get_col out "iso_final"%string.
Proof.
  assert (Hm : ("transit_z" = "poverty_rate_z" \/ "transit_z" = "transit_z")%string)
    by (right; reflexivity).
  assert (Ha : 0 < 3) by lra.
  split; [exact Hm|]. split; [exact Ha|].
  exact (proj2 (final_index_affine_invariant _ "transit_z" 3 (-1) Hm Ha)).
Defined.

(** [13_normalize_indices.py]: the only exception is [ValueError], raised
    exactly when [iri_designed] or [iri_pca] is absent; a missing optional
    column ([iso_index], [transit_z]) never makes it fail. *)
Theorem normalize_indices_errors (df : Frame.frame) :
  (forall e, Scripts.normalize_indices df = Raise e -> e = ValueError) /\
  ((exists out, Scripts.normalize_indices df = Ok out) <->
   Frame.has_col df "iri_designed"%string = true /\ Frame.has_col df "iri_pca"%string = true).
Proof.
  destruct (Scripts.missing df ["iri_designed"; "iri_pca"]%string) as [|c t] eqn:Em.
  - pose proof (proj1 (ScriptFacts.missing_nil_iff df _) Em) as Hall.
    assert (Hd : Frame.has_col df "iri_designed"%string = true) by (apply Hall; simpl; tauto).
    assert (Hp : Frame.has_col df "iri_pca"%string = true) by (apply Hall; simpl; tauto).
    destruct (ScriptFacts.has_col_some df _ Hd) as [v1 H1].
    destruct (ScriptFacts.has_col_some df _ Hp) as [v2 H2].
    rewrite (ScriptFacts.normalize_indices_ok df v1 v2 H1 H2).
    split; [intros e He; discriminate|].
    split; [intros _; split; assumption | intros _; eexists; reflexivity].
  - destruct (ScriptFacts.missing_cons_raise df _ c t Em) as [Hin Hn].
    unfold Scripts.normalize_indices. rewrite Em.
    split; [intros e He; injection He as <-; reflexivity|].
    split; [intros [out Hout]; discriminate|].
    intros [Hd Hp]. simpl in Hin. destruct Hin as [<-|[<-|[]]]; congruence.
Qed.

(** [13_normalize_indices.py] on success: for each of [iri_designed],
    [iri_pca], [iso_index], [transit_z] the input has, the output has
    [<col>_100] equal to [minmax_0_100] of that column, and every column
    other than these four [_100] names is the input's column. *)
Theorem normalize_indices_columns (df out : Frame.frame)
  (Hok : Scripts.normalize_indices df = Ok out) :
  (forall c v, In c ["iri_designed"; "iri_pca"; "iso_index"; "transit_z"]%string ->
     Frame.get_col df c = Some v ->
     Frame.get_col out (c ++ "_100")%string = Some (Scripts.minmax_col v)) /\
  (forall c, ~ In c ["iri_designed_100"; "iri_pca_100"; "iso_index_100"; "transit_z_100"]%string ->
     Frame.get_col out c = Frame.get_col df c).
Proof.
  destruct (Scripts.missing df ["iri_designed"; "iri_pca"]%string) as [|c0 t] eqn:Em;
    [|unfold Scripts.normalize_indices in Hok; rewrite Em in Hok; discriminate].
  pose proof (proj1 (ScriptFacts.missing_nil_iff df _) Em) as Hall.
  destruct (ScriptFacts.has_col_some df "iri_designed" ltac:(apply Hall; simpl; tauto))
    as [v1 H1].
  destruct (ScriptFacts.has_col_some df "iri_pca" ltac:(apply Hall; simpl; tauto))
    as [v2 H2].
  rewrite (ScriptFacts.normalize_indices_ok df v1 v2 H1 H2) in Hok.
  injection Hok as <-.
  destruct (Frame.get_col df "iso_index") as [vi|] eqn:Ei;
    destruct (Frame.get_col df "transit_z") as [vt|] eqn:Et;
    (split;
     [ intros c v Hin Hv; destruct Hin as [<-|[<-|[<-|[<-|[]]]]];
       repeat first [ rewrite IndexExtraFacts.get_col_set
                    | progress cbn [String.eqb Ascii.eqb Bool.eqb andb append] ];
       congruence
     | intros c Hc; simpl in Hc;
       rewrite !FrameFacts.get_col_set_other
         by (intro E; apply Hc; rewrite <- E; tauto);
       reflexivity ]).
Qed.

(** [minmax_0_100] of 13_normalize_indices.py on a column with NaN:
    an all-NaN column stays all NaN; when the non-NaN values are all
    equal every row becomes 50, the NaN rows included; otherwise a row is
    NaN exactly when its input is, and every other row lies in [0, 100]. *)
Theorem minmax_col_rows (series : Frame.column) :
  (dropna series = [] -> Scripts.minmax_col series = map (fun _ => None) series) /\
  ((exists x, forall y, In y (dropna series) -> y = x) -> dropna series <> [] ->
     Scripts.minmax_col series = map (fun _ => Some 50) series) /\
  ((exists x y, In x (dropna series) /\ In y (dropna series) /\ x <> y) ->
     forall i, (nth i (Scripts.minmax_col series) None = None <-> nth i series None = None) /\
       (forall z, nth i (Scripts.minmax_col series) None = Some z -> 0 <= z <= 100)).
Proof.
  unfold Scripts.minmax_col. destruct (dropna series) as [|x0 t] eqn:E.
  - split; [reflexivity|]. split; [intros _ H; now elim H|].
    intros (x & y & [] & _).
  - cbn [Normalize.series_min Normalize.series_max].
    pose proof (ScriptFacts.fold_min_le_in t x0) as Hmin.
    pose proof (ScriptFacts.fold_max_ge_in t x0) as Hmax.
    set (mn := fold_left Rmin t x0) in *. set (mx := fold_left Rmax t x0) in *.
    split; [discriminate|]. split.
    + intros [x Hx] _. destruct (Req_EM_T (mx - mn) 0) as [Z|NZ]; [reflexivity|].
      exfalso. apply NZ. unfold mn, mx.
      rewrite (Hx _ (ScriptFacts.fold_min_in t x0)), (Hx _ (ScriptFacts.fold_max_in t x0)).
      ring.
    + intros (x & y & Hx & Hy & Hxy) i.
      destruct (Req_EM_T (mx - mn) 0) as [Z|NZ].
      * exfalso. apply Hxy. pose proof (Hmin x Hx). pose proof (Hmax x Hx).
        pose proof (Hmin y Hy). pose proof (Hmax y Hy). lra.
      * assert (Hd : 0 < mx - mn)
          by (pose proof (Hmin x Hx); pose proof (Hmax x Hx); lra).
        assert (Hn : forall (f : R -> R) (l : Frame.column),
                   nth i (map (option_map f) l) None = option_map f (nth i l None))
          by (intros f l; change None with (option_map f None) at 1; apply map_nth).
        rewrite Hn. split; [apply ScriptFacts.option_map_none|].
        intros z Hz. destruct (nth i series None) as [r|] eqn:En; [|discriminate].
        injection Hz as <-.
        assert (Hr : In r (x0 :: t))
          by (rewrite <- E; apply ScriptFacts.In_dropna; exact (ScriptFacts.nth_In_some i series r En)).
        pose proof (Hmin r Hr). pose proof (Hmax r Hr).
        assert (Hq : (r - mn) / (mx - mn) <= 1).
        { unfold Rdiv. apply (Rmult_le_reg_r (mx - mn)); [lra|].
          rewrite Rmult_assoc, Rinv_l by lra. lra. }
        assert (Hq0 : 0 <= (r - mn) / (mx - mn)).
        { unfold Rdiv. apply Rmult_le_pos; [lra | left; apply Rinv_0_lt_compat; lra]. }
        replace (100 * (r - mn) / (mx - mn)) with (100 * ((r - mn) / (mx - mn)))
          by (unfold Rdiv; ring).
        split; nra.
Qed.

Lemma normalize_indices_columns_witness :
  let df := [("ward_jis", [Some 13101; Some 13102]); ("iri_designed", [Some 1; Some 3]);
             ("iri_pca", [Some 0; Some 0]); ("iso_index", [Some 2; None])]%string in
  let out := match Scripts.normalize_indices df with Ok o => o | Raise _ => [] end in
  (forall c v, In c ["iri_designed"; "iri_pca"; "iso_index"; "transit_z"]%string ->
     Frame.get_col df c = Some v ->
     Frame.get_col out (c ++ "_100")%string = Some (Scripts.minmax_col v)) /\
  (forall c, ~ In c ["iri_designed_100"; "iri_pca_100"; "iso_index_100"; "transit_z_100"]%string ->
     Frame.get_col out c = Frame.get_col df c).
Proof.
  intros df out. apply (normalize_indices_columns df out). reflexivity.
Defined.

(** Every label the two LISA labelling functions can produce
    ([_cluster_label] of the Osaka script, [classify_lisa] of the Tokyo
    script) is a key of that script's colour table, so [Series.map] never
    leaves a ward without a colour (NaN). *)
Theorem cluster_labels_all_coloured (p_thresh p : R) (q : nat) :
  Colours.dict_map Colours.osaka_cluster_colors (Lisa.osaka_cluster_label p_thresh p q) <> None /\
  Colours.dict_map Colours.tokyo_color_map (Lisa.tokyo_classify_one p_thresh p q) <> None.
Proof.
  split.
  - unfold Lisa.osaka_cluster_label.
    destruct (Rle_dec p_thresh p); [discriminate|].
    destruct (Nat.eqb q 1); [discriminate|]. destruct (Nat.eqb q 2); [discriminate|].
    destruct (Nat.eqb q 3); [discriminate|]. destruct (Nat.eqb q 4); discriminate.
  - unfold Lisa.tokyo_classify_one.
    destruct (Rlt_dec p p_thresh);
      destruct (Nat.eqb q 1), (Nat.eqb q 2), (Nat.eqb q 3), (Nat.eqb q 4); discriminate.
Qed.

(** [compute_pca_index] (07_pca_iso_index.py) does not depend on the sign
    sklearn happens to give PC1: when the table has an [iso_index] column
    whose correlation with the standardised scores is a nonzero number,
    running it with the negated projection gives the same result, the same
    new object and the same store. *)
Theorem pca_index_sign_free (pca : list (list R) -> list R) (r : nat)
  (st st1 : Frame.store) (X : list (list R)) (iso : Frame.column)
  (Hfill : Frame.fill_missing_z r st = (st1, Ok tt))
  (HX : Frame.design_matrix (Frame.heap st1 r) = Ok X)
  (Hiso : Frame.get_col (Frame.heap st1 r) "iso_index"%string = Some iso)
  (Hc : exists c, Frame.corrcoef (Frame.standardize_scores (pca X)) iso = Some c /\ c <> 0) :
  Frame.compute_pca_index (fun X => map Ropp (pca X)) r st = Frame.compute_pca_index pca r st.
Proof.
  unfold Frame.compute_pca_index. unfold Frame.bind at 1 2. rewrite Hfill.
  unfold Frame.pca_from, Frame.bind, Frame.get_obj, Frame.lift.
  cbv beta iota zeta. rewrite HX. cbv beta iota zeta.
  rewrite SignFacts.standardize_scores_neg.
  rewrite (SignFacts.align_sign_neg _ _ iso Hiso Hc). reflexivity.
Qed.

Lemma pca_index_sign_free_witness :
  Frame.compute_pca_index (fun X => map Ropp (Samples.first_coordinate X)) 0
    Samples.pca_sample_store =
  Frame.compute_pca_index Samples.first_coordinate 0 Samples.pca_sample_store.
Proof.
  apply (pca_index_sign_free Samples.first_coordinate 0 Samples.pca_sample_store
           Samples.pca_sample_store [[0; 0; 0]; [2; 0; 0]] [Some 0; Some 2]);
    [reflexivity | reflexivity | reflexivity |].
  exists 1. split; [|lra].
  change (Samples.first_coordinate [[0; 0; 0]; [2; 0; 0]]) with [0; 2].
  rewrite SampleFacts.std_scores02.
  change [Some 0; Some 2] with (map Some [0; 2]).
  assert (Hs1 : ss [-1; 1] = 2) by (unfold ss, mean, nR; simpl; field).
  rewrite (AlignFacts.corrcoef_some [-1; 1] [0; 2]) by (rewrite ?SampleFacts.ss02, ?Hs1; lra).
  rewrite SampleFacts.ss02, Hs1. f_equal.
  assert (Hcv : Frame.ss_cov [-1; 1] [0; 2] = 2) by (unfold Frame.ss_cov, mean, nR; simpl; field).
  rewrite Hcv. replace (2 * 2) with (2 ^ 2) by ring. rewrite sqrt_pow2 by lra. field.
Defined.

(** The ward-code harmonisation [.astype(str).str.strip().str.zfill(5)]
    of plot_tokyo_diri_and_lisa_maps.py and 04_validate_spatial.py always
    yields a key of at least 5 characters, and applying it to a key it
    produced changes nothing, so harmonising an already harmonised column
    (on either side of the merge) is harmless. *)
Theorem ward_key_idempotent (s : string) :
  WardCodes.ward_key (WardCodes.ward_key s) = WardCodes.ward_key s /\
  (5 <= String.length (WardCodes.ward_key s))%nat.
Proof.
  unfold WardCodes.ward_key at 2 3 4.
  set (l := WardCodes.zfill 5 (WardCodes.strip (list_ascii_of_string s))).
  assert (Hlen : (5 <= length l)%nat) by apply WardFacts.zfill_length.
  split; [|rewrite WardFacts.length_string_of_list; exact Hlen].
  unfold WardCodes.ward_key. rewrite list_ascii_of_string_of_list_ascii.
  destruct (WardFacts.strip_ok (list_ascii_of_string s)) as [H1 H2].
  destruct (WardFacts.zfill_ok 5 _ H1 H2) as [H3 H4].
  fold l in H3, H4.
  rewrite (WardFacts.strip_id l H3 H4), (WardFacts.zfill_long 5 l Hlen). reflexivity.
Qed.

Import QArith ZArith.

(** [Moran_Local] with [perms] permutations: every pseudo p-value it
    returns is [(k + 1) / (perms + 1)] for a folded count [k] with
    [2 k <= perms]: it is never 0, at least [1 / (perms + 1)], and with the
    999 permutations used by the scripts at most 1/2. *)
Theorem moran_local_p_values (y : list Q) (nbrs : list (list nat)) (perms : nat)
  (seed : Z) (p : Q) (Hp : In p (fst (Moran.moran_local y nbrs perms seed))) :
  exists k, (2 * k <= perms)%nat /\
    (p = inject_Z (Z.of_nat (S k)) / inject_Z (Z.of_nat (S perms)))%Q.
Proof.
  unfold Moran.moran_local in Hp. cbv zeta in Hp. cbn [fst] in Hp.
  apply in_map_iff in Hp. destruct Hp as [i [<- _]].
  apply MoranFacts.p_sim_form.
  rewrite length_map, MoranFacts.permuted_ids_length. lia.
Qed.

Lemma moran_local_p_values_witness :
  exists k, (2 * k <= 3)%nat /\
    (nth 0 (fst (Moran.moran_local [1; 2; 4]%Q [[1%nat]; [0%nat; 2%nat]; [1%nat]] 3 7)) 0 =
     inject_Z (Z.of_nat (S k)) / inject_Z (Z.of_nat (S 3)))%Q.
Proof.
  apply (moran_local_p_values [1; 2; 4]%Q [[1%nat]; [0%nat; 2%nat]; [1%nat]] 3 7).
  apply nth_In.
  assert (Hl : length (fst (Moran.moran_local [1; 2; 4]%Q [[1%nat]; [0%nat; 2%nat]; [1%nat]] 3 7))
               = 3%nat) by (vm_compute; reflexivity).
  rewrite Hl. lia.
Defined.

(** Every quadrant code [Moran_Local] returns is one of 1..4, so the
    notebook's [cluster_map] lookup gives a label (never NaN) for every
    ward, significant or not. *)
Theorem moran_local_quadrants (y : list Q) (nbrs : list (list nat)) (perms : nat)
  (seed : Z) (q : nat) (Hq : In q (snd (Moran.moran_local y nbrs perms seed))) :
  (1 <= q <= 4)%nat /\ forall p, Lisa.notebook_cluster_label p q <> None.
Proof.
  unfold Moran.moran_local in Hq. cbv zeta in Hq. cbn [snd] in Hq.
  apply in_map_iff in Hq. destruct Hq as [i [<- _]].
  pose proof (MoranFacts.quadrant_range
                (nth i (map (fun v => v - Moran.meanQ y) y) 0)
                (Moran.lag (map (fun v => v - Moran.meanQ y) y) (nth i nbrs []))) as Hr.
  split; [exact Hr|].
  intro p. unfold Lisa.notebook_cluster_label, Lisa.notebook_cluster_raw.
  destruct (Rlt_dec p 0.05); [|discriminate].
  destruct (Moran.quadrant _ _) as [|[|[|[|[|n]]]]]; try discriminate; lia.
Qed.

Lemma moran_local_quadrants_witness :
  (1 <= nth 1 (snd (Moran.moran_local [1; 2; 4]%Q [[1%nat]; [0%nat; 2%nat]; [1%nat]] 3 7)) O <= 4)%nat /\
  forall p, Lisa.notebook_cluster_label p
              (nth 1 (snd (Moran.moran_local [1; 2; 4]%Q [[1%nat]; [0%nat; 2%nat]; [1%nat]] 3 7)) O)
            <> None.
Proof.
  apply (moran_local_quadrants [1; 2; 4]%Q [[1%nat]; [0%nat; 2%nat]; [1%nat]] 3 7).
  apply nth_In.
  assert (Hl : length (snd (Moran.moran_local [1; 2; 4]%Q [[1%nat]; [0%nat; 2%nat]; [1%nat]] 3 7))
               = 3%nat) by (vm_compute; reflexivity).
  rewrite Hl. lia.
Defined.

End Extras.
